(** * Conference games: content loader, content API and client-side history

    A shallow embedding of the content pipeline of the conference-games
    application:

    - [Json]: the values produced by [JSON.parse], with the property access
      and truthiness the loader relies on;
    - [Content]: the [Sentence] / [Acronym] / [ContentConfig] records and the
      Zod schemas of [types/content.ts];
    - [Loader]: [ConfigMapLoader] of [services/configMapLoader.ts], as a state
      and exception monad over the loader's private fields, with a log of file
      reads and emitted events;
    - [Api]: [ContentService.getSentences] and the [GET /api/sentences] route;
    - [ErrorHandler]: the status code chosen by [middleware/errorHandler.ts];
    - [ContentManager]: the history and random selection of the
      [useContentManager] hook.

    Strings are sequences of code units ([string]); [length] is the JavaScript
    [.length].  Timestamps and pagination numbers are integers ([Z]). *)

From Stdlib Require Import String Ascii List ZArith Bool Arith Lia.
From Stdlib Require Import Permutation Sorted.
Import ListNotations.
Local Open Scope string_scope.
Local Open Scope list_scope.

(* ------------------------------------------------------------------ *)
(** ** JSON values *)

Module Json.

#[local] Set Warnings "-register-all".

(** The result of [JSON.parse].  [JObj] lists the own properties of the parsed
    object (the first binding of a key is the property).  Numbers only matter
    through their type and their truthiness, so integers stand for them. *)
Inductive json : Type :=
| JNull
| JBool (b : bool)
| JNum (n : Z)
| JStr (s : string)
| JArr (items : list json)
| JObj (props : list (string * json)).

Fixpoint own_prop (k : string) (props : list (string * json)) : option json :=
  match props with
  | [] => None
  | (k', v) :: rest => if String.eqb k k' then Some v else own_prop k rest
  end.

(** Outcome of the expression [v.k] for a content key [k] (none of the keys
    used is an inherited property): reading a property of [null] throws a
    [TypeError]; arrays, strings, numbers and booleans have no such property. *)
Inductive access : Type :=
| Thrown
| Undefined
| Found (v : json).

Definition get_prop (v : json) (k : string) : access :=
  match v with
  | JNull => Thrown
  | JObj props =>
      match own_prop k props with
      | Some x => Found x
      | None => Undefined
      end
  | _ => Undefined
  end.

(** JavaScript truthiness of a parsed value. *)
Definition truthy (v : json) : bool :=
  match v with
  | JNull => false
  | JBool b => b
  | JNum n => negb (Z.eqb n 0)
  | JStr s => negb (String.eqb s "")
  | JArr _ => true
  | JObj _ => true
  end.

End Json.

(* ------------------------------------------------------------------ *)
(** ** Lower-casing of ASCII text *)

Module AsciiCase.

Definition lower_ascii (c : ascii) : ascii :=
  let n := nat_of_ascii c in
  if (65 <=? n)%nat && (n <=? 90)%nat then ascii_of_nat (n + 32) else c.

(** [toLowerCase] on strings whose only cased characters are ASCII letters. *)
Fixpoint toLowerCase (s : string) : string :=
  match s with
  | EmptyString => EmptyString
  | String c rest => String (lower_ascii c) (toLowerCase rest)
  end.

End AsciiCase.

(* ------------------------------------------------------------------ *)
(** ** Content records and schemas *)

Module Content.
Import Json.

Record Sentence : Type := mkSentence {
  sentence_id : string;
  sentence_text : string;
  sentence_category : string
}.

Record Acronym : Type := mkAcronym {
  acronym_id : string;
  acronym_term : string;
  acronym_meaning : string
}.

Record ContentConfig : Type := mkContentConfig {
  sentences : list Sentence;
  acronyms : list Acronym
}.

(** [z.string().min(lo)] and, with [Some hi], [.max(hi)], applied to the
    property [k] of an object. *)
Definition z_string (props : list (string * json)) (k : string)
    (lo : nat) (hi : option nat) : option string :=
  match own_prop k props with
  | Some (JStr s) =>
      if (lo <=? String.length s)%nat
         && match hi with
            | Some m => (String.length s <=? m)%nat
            | None => true
            end
      then Some s else None
  | _ => None
  end.

(** [z.object] accepts objects only (neither [null] nor arrays) and keeps the
    declared keys. *)
Definition SentenceSchema (v : json) : option Sentence :=
  match v with
  | JObj props =>
      match z_string props "id" 1 None,
            z_string props "text" 1 (Some 500%nat),
            z_string props "category" 1 (Some 100%nat) with
      | Some i, Some t, Some c => Some (mkSentence i t c)
      | _, _, _ => None
      end
  | _ => None
  end.

Definition AcronymSchema (v : json) : option Acronym :=
  match v with
  | JObj props =>
      match z_string props "id" 1 None,
            z_string props "term" 1 (Some 50%nat),
            z_string props "meaning" 1 (Some 500%nat) with
      | Some i, Some t, Some m => Some (mkAcronym i t m)
      | _, _, _ => None
      end
  | _ => None
  end.

Fixpoint z_items {A : Type} (schema : json -> option A) (items : list json)
    : option (list A) :=
  match items with
  | [] => Some []
  | v :: rest =>
      match schema v, z_items schema rest with
      | Some a, Some l => Some (a :: l)
      | _, _ => None
      end
  end.

(** [z.array(schema)]. *)
Definition z_array {A : Type} (schema : json -> option A) (v : json)
    : option (list A) :=
  match v with
  | JArr items => z_items schema items
  | _ => None
  end.

(** [ContentConfigSchema.safeParse({ sentences: s, acronyms: a })]: [Some] is
    [success] with the parsed [data]. *)
Definition ContentConfigSchema (s a : json) : option ContentConfig :=
  match z_array SentenceSchema s, z_array AcronymSchema a with
  | Some ss, Some aa => Some (mkContentConfig ss aa)
  | _, _ => None
  end.

(** What the schemas guarantee of an accepted item. *)
Definition sentence_fields_ok (s : Sentence) : Prop :=
  (1 <= String.length (sentence_id s))%nat /\
  (1 <= String.length (sentence_text s) <= 500)%nat /\
  (1 <= String.length (sentence_category s) <= 100)%nat.

Definition acronym_fields_ok (a : Acronym) : Prop :=
  (1 <= String.length (acronym_id a))%nat /\
  (1 <= String.length (acronym_term a) <= 50)%nat /\
  (1 <= String.length (acronym_meaning a) <= 500)%nat.

End Content.

(* ------------------------------------------------------------------ *)
(** ** The ConfigMap loader *)

Module Loader.
Import Json Content.

Inductive ContentFile : Type := SentencesFile | AcronymsFile.

(** What [fs.readFile] followed by [JSON.parse] finds for a file. *)
Inductive FileRead : Type :=
| FileMissing               (* ENOENT *)
| FileUnparseable           (* any other read error, or a JSON syntax error *)
| FileJson (v : json).

(** The environment of one call: the two files on disk, [Date.now()] when the
    call starts and [Date.now()] when a load completes. *)
Record World : Type := mkWorld {
  file : ContentFile -> FileRead;
  time_call : Z;
  time_load : Z
}.

Inductive Error : Type :=
| ConfigMapFileNotFound (f : ContentFile)
| FailedToLoadJsonFile (f : ContentFile)
| TypeErrorOnNull
| ContentValidationFailed
| NoContentNoFallback
| ServiceNotInitialized.

(** A [ContentConfig] object on the heap: [obj_ref] is its identity. *)
Record ContentObj : Type := mkObj {
  obj_ref : nat;
  obj_val : ContentConfig
}.

Inductive Event : Type :=
| ReadFile (f : ContentFile)
| ContentUpdated (c : ContentObj)
| ContentReloaded
| ContentError (e : Error).

(** The private fields of [ConfigMapLoader], the allocator of object
    identities and the log of file reads and emitted events (latest first). *)
Record ConfigMapLoader : Type := mkLoader {
  cacheTimeout : Z;
  fallbackContent : option ContentObj;
  cachedContent : option ContentObj;
  lastLoadTime : Z;
  isLoading : bool;
  next_ref : nat;
  log : list Event
}.

Definition set_cachedContent (c : option ContentObj) (st : ConfigMapLoader) :=
  mkLoader (cacheTimeout st) (fallbackContent st) c (lastLoadTime st)
           (isLoading st) (next_ref st) (log st).

Definition set_lastLoadTime (t : Z) (st : ConfigMapLoader) :=
  mkLoader (cacheTimeout st) (fallbackContent st) (cachedContent st) t
           (isLoading st) (next_ref st) (log st).

Definition set_isLoading (b : bool) (st : ConfigMapLoader) :=
  mkLoader (cacheTimeout st) (fallbackContent st) (cachedContent st)
           (lastLoadTime st) b (next_ref st) (log st).

Definition set_next_ref (n : nat) (st : ConfigMapLoader) :=
  mkLoader (cacheTimeout st) (fallbackContent st) (cachedContent st)
           (lastLoadTime st) (isLoading st) n (log st).

Definition record (e : Event) (st : ConfigMapLoader) :=
  mkLoader (cacheTimeout st) (fallbackContent st) (cachedContent st)
           (lastLoadTime st) (isLoading st) (next_ref st) (e :: log st).

(** [new ConfigMapLoader(options)]; the fallback object, when given, exists
    before the loader and has identity [0]. *)
Definition construct (timeout : Z) (fallback : option ContentConfig)
    : ConfigMapLoader :=
  mkLoader timeout
           (match fallback with
            | Some c => Some (mkObj 0 c)
            | None => None
            end)
           None 0%Z false 1 [].

(** *** State and exception monad *)

Inductive Result (A : Type) : Type :=
| Ok (a : A)
| Throw (e : Error).
Arguments Ok {A} a.
Arguments Throw {A} e.

Definition M (A : Type) : Type := ConfigMapLoader -> Result A * ConfigMapLoader.

Definition ret {A : Type} (a : A) : M A := fun st => (Ok a, st).

Definition throw {A : Type} (e : Error) : M A := fun st => (Throw e, st).

Definition bind {A B : Type} (m : M A) (k : A -> M B) : M B :=
  fun st =>
    match m st with
    | (Ok a, st') => k a st'
    | (Throw e, st') => (Throw e, st')
    end.

Definition modify (f : ConfigMapLoader -> ConfigMapLoader) : M unit :=
  fun st => (Ok tt, f st).

Definition lift {A : Type} (r : Result A) : M A := fun st => (r, st).

Notation "x <- m ;; k" := (bind m (fun x => k))
  (at level 61, m at next level, right associativity).
Notation "m ;;; k" := (bind m (fun _ => k))
  (at level 61, right associativity).

(** *** Loading *)

(** [loadJsonFile]: the read is logged, then the file is found missing,
    unreadable or parsed. *)
Definition loadJsonFile (w : World) (f : ContentFile) : M json :=
  modify (record (ReadFile f)) ;;;
  match file w f with
  | FileMissing => throw (ConfigMapFileNotFound f)
  | FileUnparseable => throw (FailedToLoadJsonFile f)
  | FileJson v => ret v
  end.

(** [Promise.all([loadJsonFile(sentencesPath), loadJsonFile(acronymsPath)])]:
    both reads are started before either is awaited; the rejection reported is
    that of the sentences file when both fail. *)
Definition loadBoth (w : World) : M (json * json) :=
  fun st =>
    let '(rs, st1) := loadJsonFile w SentencesFile st in
    let '(ra, st2) := loadJsonFile w AcronymsFile st1 in
    match rs, ra with
    | Ok s, Ok a => (Ok (s, a), st2)
    | Throw e, _ => (Throw e, st2)
    | _, Throw e => (Throw e, st2)
    end.

(** [fileValue[key] || fileValue]. *)
Definition extract (fileValue : json) (key : string) : Result json :=
  match get_prop fileValue key with
  | Thrown => Throw TypeErrorOnNull
  | Undefined => Ok fileValue
  | Found v => if truthy v then Ok v else Ok fileValue
  end.

(** The three statements shared by the [try] and the [catch] block: the cache
    is set, the load time is stamped, [contentUpdated] is emitted. *)
Definition install (obj : ContentObj) (t : Z) (st : ConfigMapLoader) :=
  record (ContentUpdated obj)
    (set_lastLoadTime t (set_cachedContent (Some obj) st)).

(** The body of the [try] block of [loadContent]; [validationResult.data] is
    a new object. *)
Definition loadContent_try (w : World) : M unit :=
  files <- loadBoth w ;;
  s <- lift (extract (fst files) "sentences") ;;
  a <- lift (extract (snd files) "acronyms") ;;
  match ContentConfigSchema s a with
  | None => throw ContentValidationFailed
  | Some data =>
      fun st =>
        (Ok tt,
         install (mkObj (next_ref st) data) (time_load w)
           (set_next_ref (S (next_ref st)) st))
  end.

(** The [catch] block of [loadContent]. *)
Definition loadContent_catch (w : World) (e : Error) : M unit :=
  fun st =>
    match fallbackContent st, cachedContent st with
    | Some fb, None => (Ok tt, install fb (time_load w) st)
    | None, None => (Throw e, st)
    | _, Some _ => (Ok tt, st)
    end.

(** [loadContent]: guard on [isLoading], [try], [catch], [finally]. *)
Definition loadContent (w : World) : M unit :=
  fun st =>
    if isLoading st then (Ok tt, st)
    else
      let st1 := set_isLoading true st in
      let '(r, st3) :=
        match loadContent_try w st1 with
        | (Ok u, st2) => (Ok u, st2)
        | (Throw e, st2) => loadContent_catch w e st2
        end in
      (r, set_isLoading false st3).

(** *** Public operations *)

(** The cached object when [this.cachedContent && (now - this.lastLoadTime) <
    this.cacheTimeout] holds. *)
Definition cache_hit (w : World) (st : ConfigMapLoader) : option ContentObj :=
  match cachedContent st with
  | Some c =>
      if (time_call w - lastLoadTime st <? cacheTimeout st)%Z
      then Some c else None
  | None => None
  end.

Definition getContent (w : World) : M ContentObj :=
  fun st =>
    match cache_hit w st with
    | Some c => (Ok c, st)
    | None =>
        (loadContent w ;;;
         fun st' =>
           match cachedContent st' with
           | None => (Throw NoContentNoFallback, st')
           | Some c => (Ok c, st')
           end) st
    end.

Definition reloadContent (w : World) : M unit :=
  modify (set_cachedContent None) ;;;
  loadContent w.

Definition initialize (w : World) : M unit := loadContent w.

Definition isContentAvailable (st : ConfigMapLoader) : bool :=
  match cachedContent st with
  | Some _ => true
  | None => false
  end.

(** The callback armed by [handleFileChange], run once the debounce delay has
    elapsed. *)
Definition onFileChangeTimer (w : World) : M unit :=
  fun st =>
    match reloadContent w st with
    | (Ok _, st') => (Ok tt, record ContentReloaded st')
    | (Throw e, st') => (Ok tt, record (ContentError e) st')
    end.

(** *** Queries *)

(** [new Set(iterable)]: elements are added one by one; insertion order is
    kept and an element already present is not added again. *)
Definition Set_add (acc : list string) (x : string) : list string :=
  if existsb (String.eqb x) acc then acc else acc ++ [x].

Definition new_Set (l : list string) : list string :=
  fold_left Set_add l [].

(** [Array.prototype.sort()] without comparator on strings: ascending order of
    code units.  The sorted arrangement of a list of strings is unique, so
    insertion sort stands for the engine's algorithm. *)
Fixpoint sort_insert (x : string) (l : list string) : list string :=
  match l with
  | [] => [x]
  | y :: rest =>
      if String.leb x y then x :: l else y :: sort_insert x rest
  end.

Definition sort (l : list string) : list string :=
  fold_right sort_insert [] l.

(** Strictly ascending order of code units. *)
Definition strictly_ascending (l : list string) : Prop :=
  Sorted (fun a b => String.ltb a b = true) l.

Definition categories_of (c : ContentConfig) : list string :=
  sort (new_Set (map sentence_category (sentences c))).

Section CategoryFilter.

(** [String.prototype.toLowerCase]. *)
Variable toLowerCase : string -> string.

(** The result of [getSentences] once the content is known: [!category] holds
    for an absent category and for the empty string. *)
Definition sentences_for (c : ContentConfig) (category : option string)
    : list Sentence :=
  match category with
  | None => sentences c
  | Some cat =>
      if String.eqb cat "" then sentences c
      else filter (fun s => String.eqb (toLowerCase (sentence_category s))
                                        (toLowerCase cat))
                  (sentences c)
  end.

Definition getSentences (w : World) (category : option string)
    : M (list Sentence) :=
  content <- getContent w ;;
  ret (sentences_for (obj_val content) category).

End CategoryFilter.

Definition getAcronyms (w : World) : M (list Acronym) :=
  content <- getContent w ;;
  ret (acronyms (obj_val content)).

Definition getCategories (w : World) : M (list string) :=
  content <- getContent w ;;
  ret (categories_of (obj_val content)).

(** *** What a load finds on disk *)

(** The content a load attempt obtains from the files of [w], or the error it
    raises: both files parsed, the arrays extracted, the schema applied. *)
Definition disk_content (w : World) : Result ContentConfig :=
  match file w SentencesFile, file w AcronymsFile with
  | FileJson fs, FileJson fa =>
      match extract fs "sentences" with
      | Throw e => Throw e
      | Ok s =>
          match extract fa "acronyms" with
          | Throw e => Throw e
          | Ok a =>
              match ContentConfigSchema s a with
              | Some data => Ok data
              | None => Throw ContentValidationFailed
              end
          end
      end
  | FileMissing, _ => Throw (ConfigMapFileNotFound SentencesFile)
  | FileUnparseable, _ => Throw (FailedToLoadJsonFile SentencesFile)
  | _, FileMissing => Throw (ConfigMapFileNotFound AcronymsFile)
  | _, FileUnparseable => Throw (FailedToLoadJsonFile AcronymsFile)
  end.

(** The loader after both file reads of a load attempt have been issued. *)
Definition after_reads (st : ConfigMapLoader) : ConfigMapLoader :=
  record (ReadFile AcronymsFile) (record (ReadFile SentencesFile) st).

(** A file value that carries the array [items] for [key]: the bare array, or
    an object whose [key] property is that array. *)
Inductive holds_array (key : string) (items : list json) : json -> Prop :=
| holds_bare : holds_array key items (JArr items)
| holds_wrapped (props : list (string * json)) :
    own_prop key props = Some (JArr items) ->
    holds_array key items (JObj props).


End Loader.

(* ------------------------------------------------------------------ *)
(** ** Array helpers *)

Module JsArray.

(** [Array.prototype.slice(start, end)] on integer arguments. *)
Definition slice {A : Type} (l : list A) (start stop : Z) : list A :=
  let len := Z.of_nat (List.length l) in
  let k := if (start <? 0)%Z then Z.max (len + start) 0 else Z.min start len in
  let final := if (stop <? 0)%Z then Z.max (len + stop) 0 else Z.min stop len in
  firstn (Z.to_nat (final - k)) (skipn (Z.to_nat k) l).

(** [Array.prototype.includes] on strings. *)
Definition includes (l : list string) (x : string) : bool :=
  existsb (String.eqb x) l.

End JsArray.

(* ------------------------------------------------------------------ *)
(** ** The error handling middleware *)

Module ErrorHandler.

(** The class an error is an instance of, as far as [errorHandler] tells
    classes apart. *)
Inductive ErrorClass : Type :=
| ZodError
| ValidationError
| NotFoundError
| DatabaseError
| OtherError.

(** An error object: its class and its [statusCode] property, if any. *)
Record ApiError : Type := mkApiError {
  error_class : ErrorClass;
  statusCode : option Z
}.

(** The status passed to [res.status] by [errorHandler]. *)
Definition errorHandler (error : ApiError) : Z :=
  match error_class error with
  | ZodError => 400
  | ValidationError => 400
  | NotFoundError => 404
  | DatabaseError => 500
  | OtherError =>
      match statusCode error with
      | Some code => if Z.eqb code 0 then 500 else code
      | None => 500
      end
  end%Z.

End ErrorHandler.

(* ------------------------------------------------------------------ *)
(** ** The content service and the sentences route *)

Module Api.
Import Json Content Loader JsArray.

Record ContentService : Type := mkService {
  configMapLoader : ConfigMapLoader;
  initialized : bool
}.

Section Service.

Variable toLowerCase : string -> string.

(** [Promise.all([loader.getSentences(category), loader.getCategories()])].
    Both calls start before either is resumed.  On a cache hit both return the
    cached object's data.  Otherwise [getSentences] starts the load and is
    suspended on the file reads with [isLoading] set; [getCategories] then
    runs to completion against that state (its [loadContent] returns at the
    guard), and only afterwards does the load of [getSentences] finish. *)
Definition getSentences_all (w : World) (category : option string)
    : M (list Sentence * list string) :=
  fun st =>
    match cache_hit w st with
    | Some c =>
        (Ok (sentences_for toLowerCase (obj_val c) category,
             categories_of (obj_val c)), st)
    | None =>
        let rc := fst (getCategories w (set_isLoading true st)) in
        let '(rs, st') := getSentences toLowerCase w category st in
        match rc, rs with
        | Throw e, _ => (Throw e, st')
        | Ok _, Throw e => (Throw e, st')
        | Ok cats, Ok ss => (Ok (ss, cats), st')
        end
    end.

Record SentencesResult : Type := mkSentencesResult {
  result_sentences : list Sentence;
  result_total : nat;
  result_categories : list string
}.

(** [ContentService.getSentences(category, limit, offset)]. *)
Definition service_getSentences (w : World) (category : option string)
    (limit offset : option Z) (svc : ContentService)
    : Result SentencesResult * ContentService :=
  if negb (initialized svc) then (Throw ServiceNotInitialized, svc)
  else
    let '(r, st') := getSentences_all w category (configMapLoader svc) in
    let svc' := mkService st' (initialized svc) in
    match r with
    | Throw e => (Throw e, svc')
    | Ok (ss, cats) =>
        let paginated :=
          match limit, offset with
          | Some l, Some o => slice ss o (o + l)
          | _, _ => ss
          end in
        (Ok (mkSentencesResult paginated (List.length ss) cats), svc')
    end.

(** A query parameter after [z.coerce.number()]: absent, not a number, or a
    number. *)
Inductive QueryNumber : Type :=
| QAbsent
| QNaN
| QValue (n : Z).

Record Query : Type := mkQuery {
  query_category : option string;
  query_limit : QueryNumber;
  query_offset : QueryNumber
}.

(** [z.coerce.number().min(lo)], with [.max(hi)] when given, [.default(d)]. *)
Definition z_number (q : QueryNumber) (lo : Z) (hi : option Z) (d : Z)
    : option Z :=
  match q with
  | QAbsent => Some d
  | QNaN => None
  | QValue n =>
      if (lo <=? n)%Z
         && match hi with
            | Some h => (n <=? h)%Z
            | None => true
            end
      then Some n else None
  end.

(** [SentencesQuerySchema.safeParse(req.query)]. *)
Definition SentencesQuerySchema (q : Query) : option (option string * Z * Z) :=
  match z_number (query_limit q) 1 (Some 100%Z) 50,
        z_number (query_offset q) 0 None 0 with
  | Some l, Some o => Some (query_category q, l, o)
  | _, _ => None
  end.

Record Pagination : Type := mkPagination {
  total : nat;
  limit : Z;
  offset : Z;
  hasMore : bool
}.

Record SentencesResponse : Type := mkSentencesResponse {
  data : list Sentence;
  pagination : Pagination;
  categories : list string
}.

(** What the route hands over: a JSON body (status 200) or an error passed to
    the error handler. *)
Inductive Outcome : Type :=
| Json (body : SentencesResponse)
| Raised (e : ErrorHandler.ApiError).

(** Errors thrown by the loader and the service are plain [Error]s. *)
Definition plain_error (e : Error) : ErrorHandler.ApiError :=
  ErrorHandler.mkApiError ErrorHandler.OtherError None.

(** The handler of [GET /api/sentences]. *)
Definition get_sentences_route (w : World) (q : Query) (svc : ContentService)
    : Outcome * ContentService :=
  match SentencesQuerySchema q with
  | None =>
      (Raised (ErrorHandler.mkApiError ErrorHandler.ValidationError None), svc)
  | Some (category, l, o) =>
      match service_getSentences w category (Some l) (Some o) svc with
      | (Throw e, svc') => (Raised (plain_error e), svc')
      | (Ok result, svc') =>
          (Json (mkSentencesResponse
                   (result_sentences result)
                   (mkPagination (result_total result) l o
                      (o + l <? Z.of_nat (result_total result))%Z)
                   (result_categories result)),
           svc')
      end
  end.

End Service.

End Api.

(* ------------------------------------------------------------------ *)
(** ** The content manager hook *)

Module ContentManager.
Import Content JsArray.

Inductive ContentType : Type := Sentences | Acronyms.

(** [ContentHistory]: the ids shown, per content type, latest first. *)
Record ContentHistory : Type := mkHistory {
  history_sentences : list string;
  history_acronyms : list string
}.

(** The hook's content state, its options, [historyRef.current] and the
    history entry of [localStorage]. *)
Record Manager : Type := mkManager {
  maxHistorySize : Z;
  state_sentences : list Sentence;
  state_acronyms : list Acronym;
  history : ContentHistory;
  storage : option ContentHistory
}.

Definition history_of (t : ContentType) (h : ContentHistory) : list string :=
  match t with
  | Sentences => history_sentences h
  | Acronyms => history_acronyms h
  end.

Definition set_history_of (t : ContentType) (l : list string)
    (h : ContentHistory) : ContentHistory :=
  match t with
  | Sentences => mkHistory l (history_acronyms h)
  | Acronyms => mkHistory (history_sentences h) l
  end.

Definition empty_history : ContentHistory := mkHistory [] [].

(** The hook as first mounted in a browser without stored history. *)
Definition mount (size : Z) (ss : list Sentence) (aa : list Acronym)
    : Manager :=
  mkManager size ss aa empty_history None.

Definition saveHistoryToStorage (m : Manager) : Manager :=
  mkManager (maxHistorySize m) (state_sentences m) (state_acronyms m)
            (history m) (Some (history m)).

Definition loadHistoryFromStorage (m : Manager) : Manager :=
  match storage m with
  | Some h =>
      mkManager (maxHistorySize m) (state_sentences m) (state_acronyms m)
                h (storage m)
  | None => m
  end.

(** The page is opened again: [historyRef] starts empty, [localStorage] is
    what the earlier visit left, and the mount effect loads the stored
    history. *)
Definition remount (m : Manager) : Manager :=
  loadHistoryFromStorage
    (mkManager (maxHistorySize m) (state_sentences m) (state_acronyms m)
       empty_history (storage m)).

Definition addToHistory (t : ContentType) (id : string) (m : Manager)
    : Manager :=
  let hist := history_of t (history m) in
  let filteredHistory := filter (fun item => negb (String.eqb item id)) hist in
  saveHistoryToStorage
    (mkManager (maxHistorySize m) (state_sentences m) (state_acronyms m)
       (set_history_of t (slice (id :: filteredHistory) 0 (maxHistorySize m))
          (history m))
       (storage m)).

Definition clearHistory (m : Manager) : Manager :=
  saveHistoryToStorage
    (mkManager (maxHistorySize m) (state_sentences m) (state_acronyms m)
       empty_history (storage m)).

Definition getFilteredSentences (category : option string) (m : Manager)
    : list Sentence :=
  match category with
  | None => state_sentences m
  | Some cat =>
      if String.eqb cat "" then state_sentences m
      else filter (fun s => String.eqb (sentence_category s) cat)
                  (state_sentences m)
  end.

Definition getSentencesByCategory (category : string) (m : Manager)
    : list Sentence :=
  filter (fun s => String.eqb (sentence_category s) category)
         (state_sentences m).

(** [Math.floor(Math.random() * n)] for [n > 0] is some index below [n]; the
    draw [r] stands for the random number and [r mod n] is that index. *)
Definition randomIndex (r n : nat) : nat := r mod n.

Definition getRandomSentence (category : option string) (r : nat)
    (m : Manager) : option Sentence * Manager :=
  let availableSentences := getFilteredSentences category m in
  match availableSentences with
  | [] => (None, m)
  | _ :: _ =>
      let hist := history_sentences (history m) in
      let unshownSentences :=
        filter (fun s => negb (includes hist (sentence_id s)))
               availableSentences in
      let candidateSentences :=
        match unshownSentences with
        | [] => availableSentences
        | _ :: _ => unshownSentences
        end in
      match nth_error candidateSentences
              (randomIndex r (List.length candidateSentences)) with
      | Some selected =>
          (Some selected, addToHistory Sentences (sentence_id selected) m)
      | None => (None, m)
      end
  end.

Definition getRandomAcronym (r : nat) (m : Manager)
    : option Acronym * Manager :=
  match state_acronyms m with
  | [] => (None, m)
  | _ :: _ =>
      let hist := history_acronyms (history m) in
      let unshownAcronyms :=
        filter (fun a => negb (includes hist (acronym_id a)))
               (state_acronyms m) in
      let candidateAcronyms :=
        match unshownAcronyms with
        | [] => state_acronyms m
        | _ :: _ => unshownAcronyms
        end in
      match nth_error candidateAcronyms
              (randomIndex r (List.length candidateAcronyms)) with
      | Some selected =>
          (Some selected, addToHistory Acronyms (acronym_id selected) m)
      | None => (None, m)
      end
  end.

(** *** Sessions *)

(** What a presenter can do with the hook, as far as the history goes. *)
Inductive Op : Type :=
| RandomSentence (category : option string) (r : nat)
| RandomAcronym (r : nat)
| ClearHistory
| LoadHistory
| Remount.

(** The ids handed out so far, per content type, latest first. *)
Record Shown : Type := mkShown {
  shown_sentences : list string;
  shown_acronyms : list string
}.

Definition shown_of (t : ContentType) (sh : Shown) : list string :=
  match t with
  | Sentences => shown_sentences sh
  | Acronyms => shown_acronyms sh
  end.

Definition exec (op : Op) (x : Shown * Manager) : Shown * Manager :=
  let '(sh, m) := x in
  match op with
  | RandomSentence category r =>
      match getRandomSentence category r m with
      | (Some s, m') =>
          (mkShown (sentence_id s :: shown_sentences sh) (shown_acronyms sh),
           m')
      | (None, m') => (sh, m')
      end
  | RandomAcronym r =>
      match getRandomAcronym r m with
      | (Some a, m') =>
          (mkShown (shown_sentences sh) (acronym_id a :: shown_acronyms sh),
           m')
      | (None, m') => (sh, m')
      end
  | ClearHistory => (sh, clearHistory m)
  | LoadHistory => (sh, loadHistoryFromStorage m)
  | Remount => (sh, remount m)
  end.

(** A session: the operations are performed in order. *)
Definition session (ops : list Op) (m : Manager) : Shown * Manager :=
  fold_left (fun x op => exec op x) ops (mkShown [] [], m).

(** A session made of [getRandomSentence] and [getRandomAcronym] calls. *)
Definition is_random (op : Op) : bool :=
  match op with
  | RandomSentence _ _ => true
  | RandomAcronym _ => true
  | _ => false
  end.

(** *** Invariants *)

(** A history list holds at most [size] ids, none of them twice. *)
Definition history_ok (size : Z) (h : ContentHistory) : Prop :=
  forall t, NoDup (history_of t h) /\
            (Z.of_nat (List.length (history_of t h)) <= size)%Z.

(** The hook keeps its configuration and content, and both the live history
    and the stored one are well formed. *)
Definition manager_ok (size : Z) (ss : list Sentence) (aa : list Acronym)
    (m : Manager) : Prop :=
  maxHistorySize m = size /\
  state_sentences m = ss /\
  state_acronyms m = aa /\
  history_ok size (history m) /\
  match storage m with
  | Some h => history_ok size h
  | None => True
  end.

(** The latest id handed out heads the history, and the two latest ids handed
    out are in it. *)
Definition recent_ok (sh : Shown) (m : Manager) : Prop :=
  forall t,
    (shown_of t sh = [] \/
     hd_error (shown_of t sh) = hd_error (history_of t (history m))) /\
    (forall x, In x (firstn 2 (shown_of t sh)) ->
               In x (history_of t (history m))).

End ContentManager.

(* ------------------------------------------------------------------ *)
(** ** Sample content *)

Module Examples.
Import Json Content Loader.

Definition sentence_json (i t c : string) : json :=
  JObj [("id", JStr i); ("text", JStr t); ("category", JStr c)].

Definition acronym_json (i t m : string) : json :=
  JObj [("id", JStr i); ("term", JStr t); ("meaning", JStr m)].

Definition test_sentences : list json :=
  [ sentence_json "test-k8s-1" "Kubernetes makes container orchestration..."
      "Kubernetes";
    sentence_json "test-devops-1" "DevOps practices improve..." "DevOps";
    sentence_json "test-obs-1" "Observability helps teams..."
      "Observability" ].

Definition test_acronyms : list json :=
  [ acronym_json "test-k8s" "K8s" "Kubernetes";
    acronym_json "test-cicd" "CI/CD"
      "Continuous Integration/Continuous Deployment" ].

(** The fixture directory of the integration test, in wrapped form. *)
Definition good_disk (f : ContentFile) : FileRead :=
  match f with
  | SentencesFile => FileJson (JObj [("sentences", JArr test_sentences)])
  | AcronymsFile => FileJson (JObj [("acronyms", JArr test_acronyms)])
  end.

(** The same content as bare arrays. *)
Definition bare_disk (f : ContentFile) : FileRead :=
  match f with
  | SentencesFile => FileJson (JArr test_sentences)
  | AcronymsFile => FileJson (JArr test_acronyms)
  end.

(** [sentences.json] overwritten with text that is not JSON. *)
Definition broken_disk (f : ContentFile) : FileRead :=
  match f with
  | SentencesFile => FileUnparseable
  | AcronymsFile => good_disk AcronymsFile
  end.

(** Both files removed. *)
Definition missing_disk (f : ContentFile) : FileRead := FileMissing.

(** Two sentences sharing one id. *)
Definition duplicate_id_disk (f : ContentFile) : FileRead :=
  match f with
  | SentencesFile =>
      FileJson (JObj [("sentences",
        JArr [ sentence_json "s-1" "Containers are..." "Kubernetes";
               sentence_json "s-1" "Pipelines are..." "DevOps" ])])
  | AcronymsFile => good_disk AcronymsFile
  end.

(** The content set held by the fixture directory. *)
Definition test_config : ContentConfig :=
  mkContentConfig
    [ mkSentence "test-k8s-1" "Kubernetes makes container orchestration..."
        "Kubernetes";
      mkSentence "test-devops-1" "DevOps practices improve..." "DevOps";
      mkSentence "test-obs-1" "Observability helps teams..."
        "Observability" ]
    [ mkAcronym "test-k8s" "K8s" "Kubernetes";
      mkAcronym "test-cicd" "CI/CD"
        "Continuous Integration/Continuous Deployment" ].

Definition fallback_config : ContentConfig :=
  mkContentConfig
    [ mkSentence "fallback" "Fallback sentence..." "Test" ]
    [ mkAcronym "fallback" "TEST" "Test Acronym" ].

(** A loader without fallback after [initialize] on the fixture directory. *)
Definition loaded : ConfigMapLoader :=
  snd (initialize (mkWorld good_disk 0 0) (construct 1000 None)).

(** The same with fallback content configured. *)
Definition loaded_with_fallback : ConfigMapLoader :=
  snd (initialize (mkWorld good_disk 0 0)
         (construct 1000 (Some fallback_config))).

End Examples.

(* ------------------------------------------------------------------ *)
(** ** The other service operations and content routes *)

Module ContentRoutes.
Import Json Content Loader JsArray Api.

(** [ContentService.initialize]: a second call returns at once; the flag is
    set only when the loader's [initialize] has returned. *)
Definition service_initialize (w : World) (svc : ContentService)
    : Result unit * ContentService :=
  if initialized svc then (Ok tt, svc)
  else
    match initialize w (configMapLoader svc) with
    | (Ok _, st') => (Ok tt, mkService st' true)
    | (Throw e, st') => (Throw e, mkService st' (initialized svc))
    end.

Record AcronymsResult : Type := mkAcronymsResult {
  result_acronyms : list Acronym;
  result_acronyms_total : nat
}.

(** [ContentService.getAcronyms(limit, offset)]. *)
Definition service_getAcronyms (w : World) (limit offset : option Z)
    (svc : ContentService) : Result AcronymsResult * ContentService :=
  if negb (initialized svc) then (Throw ServiceNotInitialized, svc)
  else
    let '(r, st') := getAcronyms w (configMapLoader svc) in
    let svc' := mkService st' (initialized svc) in
    match r with
    | Throw e => (Throw e, svc')
    | Ok aa =>
        let paginated :=
          match limit, offset with
          | Some l, Some o => slice aa o (o + l)
          | _, _ => aa
          end in
        (Ok (mkAcronymsResult paginated (List.length aa)), svc')
    end.


(** [ContentService.reloadContent]. *)
Definition service_reloadContent (w : World) (svc : ContentService)
    : Result unit * ContentService :=
  if negb (initialized svc) then (Throw ServiceNotInitialized, svc)
  else
    let '(r, st') := reloadContent w (configMapLoader svc) in
    (r, mkService st' (initialized svc)).

(** [ContentService.isContentAvailable]. *)
Definition service_isContentAvailable (svc : ContentService) : bool :=
  initialized svc && isContentAvailable (configMapLoader svc).

(** [ContentService.cleanup]: the loader closes its watchers and drops its
    listeners; its fields stay as they are. *)
Definition service_cleanup (svc : ContentService) : ContentService :=
  mkService (configMapLoader svc) false.




(** [AcronymsQuerySchema.safeParse(req.query)]. *)
Definition AcronymsQuerySchema (q : Query) : option (Z * Z) :=
  match z_number (query_limit q) 1 (Some 100%Z) 50,
        z_number (query_offset q) 0 None 0 with
  | Some l, Some o => Some (l, o)
  | _, _ => None
  end.

Record AcronymsResponse : Type := mkAcronymsResponse {
  acronyms_data : list Acronym;
  acronyms_pagination : Pagination
}.


(** What a route hands over: a JSON body of type [A] (status 200) or an error
    passed to the error handler. *)
Inductive RouteOutcome (A : Type) : Type :=
| Answer (body : A)
| Failure (e : ErrorHandler.ApiError).
Arguments Answer {A} body.
Arguments Failure {A} e.

(** The handler of [GET /api/acronyms]. *)
Definition get_acronyms_route (w : World) (q : Query) (svc : ContentService)
    : RouteOutcome AcronymsResponse * ContentService :=
  match AcronymsQuerySchema q with
  | None =>
      (Failure (ErrorHandler.mkApiError ErrorHandler.ValidationError None),
       svc)
  | Some (l, o) =>
      match service_getAcronyms w (Some l) (Some o) svc with
      | (Throw e, svc') => (Failure (plain_error e), svc')
      | (Ok result, svc') =>
          (Answer (mkAcronymsResponse
                     (result_acronyms result)
                     (mkPagination (result_acronyms_total result) l o
                        (o + l <? Z.of_nat (result_acronyms_total result))%Z)),
           svc')
      end
  end.


(** The handler of [POST /api/content/reload]; the body is a fixed message. *)
Definition post_reload_route (w : World) (svc : ContentService)
    : RouteOutcome unit * ContentService :=
  match service_reloadContent w svc with
  | (Throw e, svc') => (Failure (plain_error e), svc')
  | (Ok _, svc') => (Answer tt, svc')
  end.

(** The HTTP status of an outcome: 200 for an answer, otherwise what the error
    handler chooses. *)
Definition status_of {A : Type} (o : RouteOutcome A) : Z :=
  match o with
  | Answer _ => 200%Z
  | Failure e => ErrorHandler.errorHandler e
  end.


End ContentRoutes.

(* ------------------------------------------------------------------ *)
(** ** Debounced file-change handling *)

Module FileWatch.

(** The closure state of [handleFileChange]: the due time of the timer that
    is armed, if any. *)
Record Debouncer : Type := mkDebouncer {
  armed : option Z
}.

Definition idle_debouncer : Debouncer := mkDebouncer None.

(** One call of [handleFileChange] at time [t]: the armed timer is cleared
    and a new one is set to run 1000 ms later. *)
Definition handleFileChange (t : Z) (d : Debouncer) : Debouncer :=
  mkDebouncer (Some (t + 1000)%Z).

(** The timers phase at time [t]: an armed timer that is due runs its
    callback (a reload) and is gone. *)
Definition run_timers (t : Z) (d : Debouncer) : list Z * Debouncer :=
  match armed d with
  | Some due => if (due <=? t)%Z then ([due], mkDebouncer None) else ([], d)
  | None => ([], d)
  end.

(** File-change events at the given times, in order, then a quiet period
    lasting until [horizon]: the due times of the reloads that run. *)
Fixpoint watch (changes : list Z) (horizon : Z) (d : Debouncer) : list Z :=
  match changes with
  | [] => fst (run_timers horizon d)
  | t :: rest =>
      let '(fired, d') := run_timers t d in
      fired ++ watch rest horizon (handleFileChange t d')
  end.

(** Consecutive changes are less than 1000 ms apart. *)
Fixpoint burst (t : Z) (later : list Z) : Prop :=
  match later with
  | [] => True
  | t' :: rest => (t <= t' < t + 1000)%Z /\ burst t' rest
  end.

End FileWatch.

(* ------------------------------------------------------------------ *)
(** ** The response caching middleware *)

Module Caching.

(** *** JavaScript [Map] with string keys *)

Section Maps.

Variable V : Type.

(** The entries in insertion order; every key occurs once. *)
Definition JsMap : Type := list (string * V).

Fixpoint map_get (k : string) (m : JsMap) : option V :=
  match m with
  | [] => None
  | (k', v) :: rest => if String.eqb k k' then Some v else map_get k rest
  end.

Definition map_has (k : string) (m : JsMap) : bool :=
  match map_get k m with
  | Some _ => true
  | None => false
  end.

(** [Map.prototype.set]: the value of a present key is replaced where it is,
    a new key goes last. *)
Fixpoint map_set (k : string) (v : V) (m : JsMap) : JsMap :=
  match m with
  | [] => [(k, v)]
  | (k', v') :: rest =>
      if String.eqb k k' then (k, v) :: rest else (k', v') :: map_set k v rest
  end.

Fixpoint map_delete (k : string) (m : JsMap) : JsMap :=
  match m with
  | [] => []
  | (k', v') :: rest =>
      if String.eqb k k' then rest else (k', v') :: map_delete k rest
  end.

Definition map_keys (m : JsMap) : list string := map fst m.

End Maps.

Arguments map_get {V}.
Arguments map_has {V}.
Arguments map_set {V}.
Arguments map_delete {V}.
Arguments map_keys {V}.

(** *** [MemoryCache] *)

Section MemoryCache.

Variable Entry : Type.

Record MemoryCache : Type := mkCache {
  cache : JsMap Entry;
  maxSize : Z;
  accessOrder : JsMap nat;
  accessCounter : nat
}.

(** [new MemoryCache(maxSize)]. *)
Definition new_cache (size : Z) : MemoryCache := mkCache [] size [] 0.

(** [get]: a found entry is stamped with the next access number. *)
Definition cache_get (k : string) (c : MemoryCache)
    : option Entry * MemoryCache :=
  match map_get k (cache c) with
  | Some e =>
      (Some e,
       mkCache (cache c) (maxSize c)
               (map_set k (S (accessCounter c)) (accessOrder c))
               (S (accessCounter c)))
  | None => (None, c)
  end.

(** [delete]: returns whether the key was cached. *)
Definition cache_delete (k : string) (c : MemoryCache) : bool * MemoryCache :=
  (map_has k (cache c),
   mkCache (map_delete k (cache c)) (maxSize c)
           (map_delete k (accessOrder c)) (accessCounter c)).

(** The loop of [evictLRU]: the first key with the smallest stamp, starting
    from no key and [Infinity]. *)
Definition oldest_step (acc : option (string * nat)) (kv : string * nat)
    : option (string * nat) :=
  match acc with
  | None => Some kv
  | Some (_, oldestAccess) =>
      if (snd kv <? oldestAccess)%nat then Some kv else acc
  end.

Definition oldest (m : JsMap nat) : option (string * nat) :=
  fold_left oldest_step m None.

(** [evictLRU]: the key found is deleted if it is truthy, that is, unless it
    is the empty string. *)
Definition evictLRU (c : MemoryCache) : MemoryCache :=
  match oldest (accessOrder c) with
  | Some (oldestKey, _) =>
      if String.eqb oldestKey "" then c else snd (cache_delete oldestKey c)
  | None => c
  end.

(** [set]. *)
Definition cache_set (k : string) (e : Entry) (c : MemoryCache) : MemoryCache :=
  let c1 :=
    if (maxSize c <=? Z.of_nat (List.length (cache c)))%Z
       && negb (map_has k (cache c))
    then evictLRU c else c in
  mkCache (map_set k e (cache c1)) (maxSize c1)
          (map_set k (S (accessCounter c1)) (accessOrder c1))
          (S (accessCounter c1)).

(** [clear]. *)
Definition cache_clear (c : MemoryCache) : MemoryCache :=
  mkCache [] (maxSize c) [] 0.

(** [size]. *)
Definition cache_size (c : MemoryCache) : nat := List.length (cache c).

(** What a user of the cache can do. *)
Inductive CacheOp : Type :=
| OpGet (k : string)
| OpSet (k : string) (e : Entry)
| OpDelete (k : string)
| OpClear.

Definition cache_exec (op : CacheOp) (c : MemoryCache) : MemoryCache :=
  match op with
  | OpGet k => snd (cache_get k c)
  | OpSet k e => cache_set k e c
  | OpDelete k => snd (cache_delete k c)
  | OpClear => cache_clear c
  end.

Definition cache_run (ops : list CacheOp) (c : MemoryCache) : MemoryCache :=
  fold_left (fun c op => cache_exec op c) ops c.

(** The key an operation names, if any. *)
Definition op_key (op : CacheOp) : option string :=
  match op with
  | OpGet k => Some k
  | OpSet k _ => Some k
  | OpDelete k => Some k
  | OpClear => None
  end.

(** The two maps hold the same keys, each once; the stamps are distinct and
    none exceeds the counter. *)
Definition cache_wf (c : MemoryCache) : Prop :=
  NoDup (map_keys (cache c)) /\
  NoDup (map_keys (accessOrder c)) /\
  (forall k, map_has k (cache c) = map_has k (accessOrder c)) /\
  NoDup (map snd (accessOrder c)) /\
  (forall k a, In (k, a) (accessOrder c) -> (a <= accessCounter c)%nat).

End MemoryCache.

Arguments cache {Entry}.
Arguments maxSize {Entry}.
Arguments accessOrder {Entry}.
Arguments accessCounter {Entry}.
Arguments mkCache {Entry}.
Arguments new_cache {Entry}.
Arguments cache_get {Entry}.
Arguments cache_delete {Entry}.
Arguments evictLRU {Entry}.
Arguments cache_set {Entry}.
Arguments cache_clear {Entry}.
Arguments cache_size {Entry}.
Arguments OpGet {Entry}.
Arguments OpSet {Entry}.
Arguments OpDelete {Entry}.
Arguments OpClear {Entry}.
Arguments cache_exec {Entry}.
Arguments cache_run {Entry}.
Arguments op_key {Entry}.
Arguments cache_wf {Entry}.

(** *** [responseCache] *)

Section ResponseCache.

(** The JSON bodies and [generateETag] (an MD5 digest of the serialized
    body). *)
Variable Data : Type.
Variable generateETag : Data -> string.

Record CacheEntry : Type := mkEntry {
  entry_data : Data;
  entry_headers : JsMap string;
  entry_timestamp : Z;
  entry_etag : string
}.

(** A request as the middleware sees it: its method, the key computed by the
    key generator and its [If-None-Match] header. *)
Record Request : Type := mkRequest {
  method : string;
  cacheKey : string;
  ifNoneMatch : option string
}.

(** What the rest of the chain does once [next()] is called: it answers with
    [res.json(body)] under some status and response headers, or in some other
    way. *)
Inductive Downstream : Type :=
| SendsJson (statusCode : Z) (resHeaders : JsMap string) (body : Data)
| SendsOther.

(** What the client gets: 304, the cached entry ([X-Cache: HIT]), or the
    answer of the rest of the chain, stored ([X-Cache: MISS]) or not. *)
Inductive Served : Type :=
| NotModified
| Hit (e : CacheEntry)
| Miss (down : Downstream) (stored : bool).

(** The headers captured with a stored body: those of the list that are set
    to a non-empty value. *)
Definition capture_headers (names : list string) (resHeaders : JsMap string)
    : JsMap string :=
  fold_left
    (fun acc name =>
       match map_get name resHeaders with
       | Some v => if String.eqb v "" then acc else map_set name v acc
       | None => acc
       end)
    names [].

(** [defaultShouldCache]. *)
Definition defaultShouldCache (req : Request) (statusCode : Z) : bool :=
  String.eqb (method req) "GET" && Z.eqb statusCode 200.

(** One request through the middleware built by [responseCache({ttl,
    varyHeaders})] over its cache instance, at time [now]. *)
Definition responseCache (ttl : Z) (varyHeaders : list string) (now : Z)
    (req : Request) (down : Downstream) (c : MemoryCache CacheEntry)
    : Served * MemoryCache CacheEntry :=
  if negb (String.eqb (method req) "GET") then (Miss down false, c)
  else
    let '(cachedEntry, c1) := cache_get (cacheKey req) c in
    let fresh :=
      match cachedEntry with
      | Some e => if (now - entry_timestamp e <? ttl)%Z then Some e else None
      | None => None
      end in
    match fresh with
    | Some e =>
        match ifNoneMatch req with
        | Some tag =>
            if negb (String.eqb tag "") && String.eqb tag (entry_etag e)
            then (NotModified, c1) else (Hit e, c1)
        | None => (Hit e, c1)
        end
    | None =>
        match down with
        | SendsJson statusCode resHeaders body =>
            if defaultShouldCache req statusCode then
              (Miss down true,
               cache_set (cacheKey req)
                 (mkEntry body
                    (capture_headers
                       ("content-type" :: "cache-control" :: varyHeaders)
                       resHeaders)
                    now (generateETag body))
                 c1)
            else (Miss down false, c1)
        | SendsOther => (Miss down false, c1)
        end
    end.

(** The module: [globalCache] and, beside it, the cache instance of the one
    middleware the application installs. *)
Record Caches : Type := mkCaches {
  globalCache : MemoryCache CacheEntry;
  instanceCache : MemoryCache CacheEntry
}.

(** At start-up: [new MemoryCache(1000)] and the instance of
    [responseCache({ maxSize })]. *)
Definition start (size : Z) : Caches :=
  mkCaches (new_cache 1000) (new_cache size).

(** [clearCache]. *)
Definition clearCache (cs : Caches) : Caches :=
  mkCaches (cache_clear (globalCache cs)) (instanceCache cs).

(** [getCacheStats().size]. *)
Definition getCacheStats_size (cs : Caches) : nat :=
  cache_size (globalCache cs).

(** What happens to the caches while the server runs. *)
Inductive ServerEvent : Type :=
| Incoming (now : Z) (req : Request) (down : Downstream)
| ClearCache.

Definition serve (ttl : Z) (varyHeaders : list string) (ev : ServerEvent)
    (cs : Caches) : option Served * Caches :=
  match ev with
  | Incoming now req down =>
      let '(r, c') := responseCache ttl varyHeaders now req down
                        (instanceCache cs) in
      (Some r, mkCaches (globalCache cs) c')
  | ClearCache => (None, clearCache cs)
  end.

(** The answers given to the requests of a run, in order, and the caches at
    its end. *)
Fixpoint serve_all (ttl : Z) (varyHeaders : list string)
    (evs : list ServerEvent) (cs : Caches) : list Served * Caches :=
  match evs with
  | [] => ([], cs)
  | ev :: rest =>
      let '(r, cs1) := serve ttl varyHeaders ev cs in
      let '(rs, cs2) := serve_all ttl varyHeaders rest cs1 in
      (match r with
       | Some x => x :: rs
       | None => rs
       end, cs2)
  end.

Definition is_request (ev : ServerEvent) : bool :=
  match ev with
  | Incoming _ _ _ => true
  | ClearCache => false
  end.

End ResponseCache.

Arguments mkEntry {Data}.
Arguments entry_data {Data}.
Arguments entry_headers {Data}.
Arguments entry_timestamp {Data}.
Arguments entry_etag {Data}.
Arguments SendsJson {Data}.
Arguments SendsOther {Data}.
Arguments NotModified {Data}.
Arguments Hit {Data}.
Arguments Miss {Data}.
Arguments Incoming {Data}.
Arguments ClearCache {Data}.
Arguments responseCache {Data}.
Arguments mkCaches {Data}.
Arguments globalCache {Data}.
Arguments instanceCache {Data}.
Arguments start {Data}.
Arguments clearCache {Data}.
Arguments getCacheStats_size {Data}.
Arguments serve {Data}.
Arguments serve_all {Data}.
Arguments is_request {Data}.

End Caching.

(* ------------------------------------------------------------------ *)
(** ** Going back in the content manager *)

Module Navigation.
Import Content ContentManager.

Definition getPreviousSentence (m : Manager) : option Sentence :=
  match history_sentences (history m) with
  | _ :: previousId :: _ =>
      find (fun s => String.eqb (sentence_id s) previousId) (state_sentences m)
  | _ => None
  end.

Definition getPreviousAcronym (m : Manager) : option Acronym :=
  match history_acronyms (history m) with
  | _ :: previousId :: _ =>
      find (fun a => String.eqb (acronym_id a) previousId) (state_acronyms m)
  | _ => None
  end.

End Navigation.

(* ================================================================== *)
(** * Properties *)

Import Json Content Loader.

(** ** Error handler *)

Section ErrorHandlerFacts.
Import ErrorHandler.
Local Open Scope Z_scope.

(** C7 (as stated, refuted): an error that is none of the handled classes and
    carries [statusCode] 413 is answered with 413, which is none of 400, 404,
    503 and 500. *)
Lemma errorHandler_passes_statusCode_through :
  errorHandler (mkApiError OtherError (Some 413)) = 413 /\
  ~ In (errorHandler (mkApiError OtherError (Some 413))) [400; 404; 503; 500].
Proof.
  split; [reflexivity|].
  cbn. intros [H|[H|[H|[H|[]]]]]; discriminate H.
Qed.

(** C7 (amended): a [ZodError] or [ValidationError] is answered with 400, a
    [NotFoundError] with 404, a [DatabaseError] with 500, any other error
    without [statusCode] with 500; an error without [statusCode] is therefore
    answered with 400, 404 or 500, while any other error with a non-zero
    [statusCode] is answered with that very code. *)
Theorem errorHandler_status_codes :
  forall e : ApiError,
    (error_class e = ZodError \/ error_class e = ValidationError ->
     errorHandler e = 400) /\
    (error_class e = NotFoundError -> errorHandler e = 404) /\
    (error_class e = DatabaseError -> errorHandler e = 500) /\
    (error_class e = OtherError -> statusCode e = None ->
     errorHandler e = 500) /\
    (statusCode e = None -> In (errorHandler e) [400; 404; 500]) /\
    (forall code, error_class e = OtherError -> statusCode e = Some code ->
                  code <> 0 -> errorHandler e = code).
Proof.
  intros [cls sc]; unfold errorHandler; cbn.
  repeat split.
  - intros [->| ->]; reflexivity.
  - intros ->; reflexivity.
  - intros ->; reflexivity.
  - intros -> ->; reflexivity.
  - intros ->. destruct cls; cbn; auto.
  - intros code -> -> Hnz.
    destruct (Z.eqb_spec code 0); [contradiction|reflexivity].
Qed.

End ErrorHandlerFacts.

(** ** Loader: what a load attempt does *)

Section LoaderFacts.

Lemma loadContent_try_spec (w : World) (st : ConfigMapLoader) :
  loadContent_try w st =
  match disk_content w with
  | Ok data =>
      (Ok tt,
       install (mkObj (next_ref st) data) (time_load w)
         (set_next_ref (S (next_ref st)) (after_reads st)))
  | Throw e => (Throw e, after_reads st)
  end.
Proof.
  unfold loadContent_try, loadBoth, loadJsonFile, disk_content, bind, modify,
    lift, throw, ret, after_reads.
  destruct (file w SentencesFile) as [| |fs];
    destruct (file w AcronymsFile) as [| |fa]; cbn; try reflexivity.
  destruct (extract fs "sentences") as [s|e]; cbn; [|reflexivity].
  destruct (extract fa "acronyms") as [a|e]; cbn; [|reflexivity].
  destruct (ContentConfigSchema s a); reflexivity.
Qed.

(** An idle loader ([isLoading] unset) that finds valid content on disk caches
    a new object holding it. *)
Lemma loadContent_success (w : World) (st : ConfigMapLoader) data :
  isLoading st = false ->
  disk_content w = Ok data ->
  loadContent w st =
  (Ok tt,
   set_isLoading false
     (install (mkObj (next_ref st) data) (time_load w)
        (set_next_ref (S (next_ref st))
           (after_reads (set_isLoading true st))))).
Proof.
  intros Hidle Hdisk. unfold loadContent. rewrite Hidle.
  rewrite loadContent_try_spec, Hdisk. reflexivity.
Qed.

(** An idle loader whose load attempt fails: the fallback is installed when
    nothing is cached, the cached content is kept when there is one, and the
    error is raised when there is neither. *)
Lemma loadContent_failure (w : World) (st : ConfigMapLoader) e :
  isLoading st = false ->
  disk_content w = Throw e ->
  loadContent w st =
  match fallbackContent st, cachedContent st with
  | Some fb, None =>
      (Ok tt,
       set_isLoading false
         (install fb (time_load w) (after_reads (set_isLoading true st))))
  | None, None =>
      (Throw e, set_isLoading false (after_reads (set_isLoading true st)))
  | _, Some _ =>
      (Ok tt, set_isLoading false (after_reads (set_isLoading true st)))
  end.
Proof.
  intros Hidle Hdisk. unfold loadContent. rewrite Hidle.
  rewrite loadContent_try_spec, Hdisk. unfold loadContent_catch. cbn.
  destruct (fallbackContent st), (cachedContent st); reflexivity.
Qed.

(** Every operation leaves the loader idle. *)
Lemma loadContent_idle (w : World) (st : ConfigMapLoader) :
  isLoading st = false -> isLoading (snd (loadContent w st)) = false.
Proof.
  intros Hidle. unfold loadContent. rewrite Hidle.
  destruct (loadContent_try w (set_isLoading true st)) as [[u|e] st2].
  - reflexivity.
  - destruct (loadContent_catch w e st2); reflexivity.
Qed.


Lemma reloadContent_idle (w : World) (st : ConfigMapLoader) :
  isLoading st = false -> isLoading (snd (reloadContent w st)) = false.
Proof.
  intros Hidle. unfold reloadContent, bind, modify.
  apply (loadContent_idle w (set_cachedContent None st)). exact Hidle.
Qed.

(** [getContent] on an idle loader whose cache is empty or expired. *)
Lemma getContent_miss (w : World) (st : ConfigMapLoader) :
  cache_hit w st = None ->
  getContent w st =
  match loadContent w st with
  | (Ok _, st') =>
      match cachedContent st' with
      | None => (Throw NoContentNoFallback, st')
      | Some c => (Ok c, st')
      end
  | (Throw e, st') => (Throw e, st')
  end.
Proof.
  intros Hmiss. unfold getContent, bind. rewrite Hmiss.
  destruct (loadContent w st) as [[u|e] st']; reflexivity.
Qed.


Lemma cache_hit_None (w : World) (st : ConfigMapLoader) :
  cache_hit w st = None <->
  cachedContent st = None \/
  (cacheTimeout st <= time_call w - lastLoadTime st)%Z.
Proof.
  unfold cache_hit. destruct (cachedContent st) as [c'|].
  - destruct (Z.ltb_spec (time_call w - lastLoadTime st) (cacheTimeout st)).
    + split; [discriminate | intros [[=]|Hle]; lia].
    + split; auto.
  - split; auto.
Qed.

(** A call that arrives while a load is in flight reads nothing: it returns
    the object cached so far, or throws when there is none. *)
Lemma getContent_while_loading (w : World) (st : ConfigMapLoader) :
  isLoading st = true ->
  cache_hit w st = None ->
  getContent w st =
  match cachedContent st with
  | Some c => (Ok c, st)
  | None => (Throw NoContentNoFallback, st)
  end.
Proof.
  intros Hbusy Hmiss. rewrite (getContent_miss _ _ Hmiss).
  unfold loadContent. rewrite Hbusy. reflexivity.
Qed.


(** A forced reload that fails never keeps the content cached before: the
    cache ends up empty (no fallback) or holding the fallback object. *)
Lemma reloadContent_failure (w : World) (st : ConfigMapLoader) e :
  isLoading st = false ->
  disk_content w = Throw e ->
  match fallbackContent st with
  | None =>
      fst (reloadContent w st) = Throw e /\
      cachedContent (snd (reloadContent w st)) = None
  | Some fb =>
      fst (reloadContent w st) = Ok tt /\
      cachedContent (snd (reloadContent w st)) = Some fb
  end.
Proof.
  intros Hidle Hdisk. unfold reloadContent, bind, modify.
  rewrite (loadContent_failure w (set_cachedContent None st) e Hidle Hdisk).
  cbn. destruct (fallbackContent st); cbn; auto.
Qed.

(** C1 (the code departs from the claim): a loader without fallback has
    loaded the fixture content; [sentences.json] is then overwritten with
    text that is not JSON.  [reloadContent] raises the load error and leaves
    the cache empty, and the file-watch callback reports [contentError] with
    no content left; with fallback content configured the reload replaces the
    loaded content by the fallback object and reports no error. *)
Theorem reloadContent_discards_previous_content :
  let w := mkWorld Examples.broken_disk 10 10 in
  isContentAvailable Examples.loaded = true /\
  fst (reloadContent w Examples.loaded) =
    Throw (FailedToLoadJsonFile SentencesFile) /\
  isContentAvailable (snd (reloadContent w Examples.loaded)) = false /\
  (let st := snd (onFileChangeTimer w Examples.loaded) in
   isContentAvailable st = false /\
   hd_error (log st) =
     Some (ContentError (FailedToLoadJsonFile SentencesFile))) /\
  (let st := snd (onFileChangeTimer w Examples.loaded_with_fallback) in
   cachedContent Examples.loaded_with_fallback <>
     Some (mkObj 0 Examples.fallback_config) /\
   cachedContent st = Some (mkObj 0 Examples.fallback_config) /\
   ~ In (ContentError (FailedToLoadJsonFile SentencesFile)) (log st)).
Proof.
  cbv zeta. repeat split; try (vm_compute; reflexivity).
  - vm_compute. discriminate.
  - vm_compute. intuition discriminate.
Qed.




(** ** Loader: file forms and validation *)

Lemma extract_holds_array key items v :
  holds_array key items v -> extract v key = Ok (JArr items).
Proof.
  intros [|props Hprop]; unfold extract, get_prop.
  - reflexivity.
  - rewrite Hprop. reflexivity.
Qed.

(** C9: when both files parse as JSON and each is either the bare array or an
    object wrapping the array under its key, the array is what is extracted
    and submitted to the schema; an idle loader then caches a new object whose
    content is the schema's output for these two arrays, and a rejection by
    the schema is the only way such a load can fail. *)
Theorem loadContent_wrapped_or_bare :
  forall (w : World) (st : ConfigMapLoader) fs fa ss aa,
    isLoading st = false ->
    file w SentencesFile = FileJson fs ->
    file w AcronymsFile = FileJson fa ->
    holds_array "sentences" ss fs ->
    holds_array "acronyms" aa fa ->
    extract fs "sentences" = Ok (JArr ss) /\
    extract fa "acronyms" = Ok (JArr aa) /\
    disk_content w =
      match ContentConfigSchema (JArr ss) (JArr aa) with
      | Some data => Ok data
      | None => Throw ContentValidationFailed
      end /\
    (forall data,
       ContentConfigSchema (JArr ss) (JArr aa) = Some data ->
       fst (loadContent w st) = Ok tt /\
       cachedContent (snd (loadContent w st)) =
         Some (mkObj (next_ref st) data)).
Proof.
  intros w st fs fa ss aa Hidle Hfs Hfa Hs Ha.
  pose proof (extract_holds_array _ _ _ Hs) as Es.
  pose proof (extract_holds_array _ _ _ Ha) as Ea.
  assert (Hdisk : disk_content w =
                  match ContentConfigSchema (JArr ss) (JArr aa) with
                  | Some data => Ok data
                  | None => Throw ContentValidationFailed
                  end).
  { unfold disk_content. rewrite Hfs, Hfa, Es, Ea. reflexivity. }
  split; [exact Es|]. split; [exact Ea|]. split; [exact Hdisk|].
  intros data Hschema. rewrite Hschema in Hdisk.
  rewrite (loadContent_success _ _ _ Hidle Hdisk). split; reflexivity.
Qed.

(** The fixture content is loaded alike from wrapped and from bare files. *)
Lemma loadContent_wrapped_or_bare_witness :
  cachedContent (snd (loadContent (mkWorld Examples.good_disk 0 0)
                        (construct 1000 None))) =
    Some (mkObj 1 Examples.test_config) /\
  cachedContent (snd (loadContent (mkWorld Examples.bare_disk 0 0)
                        (construct 1000 None))) =
    Some (mkObj 1 Examples.test_config).
Proof.
  split.
  - apply (loadContent_wrapped_or_bare (mkWorld Examples.good_disk 0 0)
             (construct 1000 None)
             (JObj [("sentences", JArr Examples.test_sentences)])
             (JObj [("acronyms", JArr Examples.test_acronyms)])
             Examples.test_sentences Examples.test_acronyms);
      try reflexivity.
    + apply holds_wrapped. reflexivity.
    + apply holds_wrapped. reflexivity.
  - apply (loadContent_wrapped_or_bare (mkWorld Examples.bare_disk 0 0)
             (construct 1000 None)
             (JArr Examples.test_sentences) (JArr Examples.test_acronyms)
             Examples.test_sentences Examples.test_acronyms);
      try reflexivity.
    + apply holds_bare.
    + apply holds_bare.
Defined.

Lemma z_string_bounds props k lo hi s :
  z_string props k lo hi = Some s ->
  (lo <= String.length s)%nat /\
  match hi with
  | Some m => (String.length s <= m)%nat
  | None => True
  end.
Proof.
  unfold z_string.
  destruct (own_prop k props) as [[| | |s'| |]|]; try discriminate.
  destruct (Nat.leb_spec lo (String.length s')); cbn; [|discriminate].
  destruct hi as [m|].
  - destruct (Nat.leb_spec (String.length s') m); [|discriminate].
    intros [= <-]; auto.
  - intros [= <-]; auto.
Qed.

Lemma SentenceSchema_fields v s :
  SentenceSchema v = Some s -> sentence_fields_ok s.
Proof.
  unfold SentenceSchema. destruct v as [| | | | |props]; try discriminate.
  destruct (z_string props "id" 1 None) as [i|] eqn:Hi; [|discriminate].
  destruct (z_string props "text" 1 (Some 500%nat)) as [t|] eqn:Ht;
    [|discriminate].
  destruct (z_string props "category" 1 (Some 100%nat)) as [c|] eqn:Hc;
    [|discriminate].
  intros [= <-].
  apply z_string_bounds in Hi, Ht, Hc. unfold sentence_fields_ok; cbn. tauto.
Qed.

Lemma AcronymSchema_fields v a :
  AcronymSchema v = Some a -> acronym_fields_ok a.
Proof.
  unfold AcronymSchema. destruct v as [| | | | |props]; try discriminate.
  destruct (z_string props "id" 1 None) as [i|] eqn:Hi; [|discriminate].
  destruct (z_string props "term" 1 (Some 50%nat)) as [t|] eqn:Ht;
    [|discriminate].
  destruct (z_string props "meaning" 1 (Some 500%nat)) as [m|] eqn:Hm;
    [|discriminate].
  intros [= <-].
  apply z_string_bounds in Hi, Ht, Hm. unfold acronym_fields_ok; cbn. tauto.
Qed.

Lemma z_items_Forall {A : Type} (schema : json -> option A) (P : A -> Prop) :
  (forall v a, schema v = Some a -> P a) ->
  forall items l, z_items schema items = Some l -> Forall P l.
Proof.
  intros Hschema items. induction items as [|v rest IH]; intros l; cbn.
  - intros [= <-]. constructor.
  - destruct (schema v) as [a|] eqn:Hv; [|discriminate].
    destruct (z_items schema rest) as [l'|]; [|discriminate].
    intros [= <-]. constructor; eauto.
Qed.

Lemma ContentConfigSchema_fields s a data :
  ContentConfigSchema s a = Some data ->
  Forall sentence_fields_ok (sentences data) /\
  Forall acronym_fields_ok (acronyms data).
Proof.
  unfold ContentConfigSchema, z_array.
  destruct s as [| | | |ss|]; try discriminate.
  destruct (z_items SentenceSchema ss) as [ls|] eqn:Hs; [|discriminate].
  destruct a as [| | | |aa|]; try discriminate.
  destruct (z_items AcronymSchema aa) as [la|] eqn:Ha; [|discriminate].
  intros [= <-]; cbn. split.
  - eapply z_items_Forall; [apply SentenceSchema_fields | exact Hs].
  - eapply z_items_Forall; [apply AcronymSchema_fields | exact Ha].
Qed.

(** C5 (as stated, refuted): two sentences sharing the id [s-1] pass the
    schema, are cached by the loader and are served by [getContent]. *)
Lemma loader_serves_duplicate_ids :
  let w := mkWorld Examples.duplicate_id_disk 0 0 in
  exists c,
    fst (getContent w (construct 1000 None)) = Ok c /\
    map sentence_id (sentences (obj_val c)) = ["s-1"; "s-1"] /\
    ~ NoDup (map sentence_id (sentences (obj_val c))).
Proof.
  cbv zeta. eexists. split; [vm_compute; reflexivity|].
  split; [reflexivity|].
  cbn. intros Hnd. inversion Hnd as [|x l Hnotin _]; subst.
  apply Hnotin. left. reflexivity.
Qed.

(** C5 (amended): the content cached by a successful load passed the schema:
    every sentence has a non-empty id, a text of 1 to 500 characters and a
    category of 1 to 100 characters, and every acronym a non-empty id, a term
    of 1 to 50 and a meaning of 1 to 500 characters. *)
Theorem loaded_content_fields :
  forall (w : World) (st st' : ConfigMapLoader),
    loadContent_try w st = (Ok tt, st') ->
    exists data,
      disk_content w = Ok data /\
      cachedContent st' = Some (mkObj (next_ref st) data) /\
      Forall sentence_fields_ok (sentences data) /\
      Forall acronym_fields_ok (acronyms data).
Proof.
  intros w st st'. rewrite loadContent_try_spec.
  destruct (disk_content w) as [data|e] eqn:Hdisk; [|discriminate].
  intros [= <-]. exists data. repeat split; auto.
  - unfold disk_content in Hdisk.
    destruct (file w SentencesFile) as [| |fs]; try discriminate;
      destruct (file w AcronymsFile) as [| |fa]; try discriminate.
    destruct (extract fs "sentences") as [s|]; try discriminate.
    destruct (extract fa "acronyms") as [a|]; try discriminate.
    destruct (ContentConfigSchema s a) as [d|] eqn:Hschema; try discriminate.
    injection Hdisk as <-. apply (ContentConfigSchema_fields _ _ _ Hschema).
  - unfold disk_content in Hdisk.
    destruct (file w SentencesFile) as [| |fs]; try discriminate;
      destruct (file w AcronymsFile) as [| |fa]; try discriminate.
    destruct (extract fs "sentences") as [s|]; try discriminate.
    destruct (extract fa "acronyms") as [a|]; try discriminate.
    destruct (ContentConfigSchema s a) as [d|] eqn:Hschema; try discriminate.
    injection Hdisk as <-. apply (ContentConfigSchema_fields _ _ _ Hschema).
Qed.

(** The fixture content satisfies the field bounds. *)
Lemma loaded_content_fields_witness :
  Forall sentence_fields_ok (sentences Examples.test_config).
Proof.
  destruct (loaded_content_fields (mkWorld Examples.good_disk 0 0)
              (construct 1000 None)
              (snd (loadContent_try (mkWorld Examples.good_disk 0 0)
                      (construct 1000 None)))
              eq_refl) as (data & Hdisk & _ & Hs & _).
  vm_compute in Hdisk. injection Hdisk as <-. exact Hs.
Defined.

(** ** Loader: categories *)

Lemma existsb_eqb_In (x : string) (l : list string) :
  existsb (String.eqb x) l = true <-> In x l.
Proof.
  rewrite existsb_exists. split.
  - intros (y & Hy & Heq). apply String.eqb_eq in Heq. now subst.
  - intros Hin. exists x. split; [assumption | apply String.eqb_refl].
Qed.

Lemma Set_add_In (acc : list string) (x y : string) :
  In y (Set_add acc x) <-> In y acc \/ y = x.
Proof.
  unfold Set_add. destruct (existsb (String.eqb x) acc) eqn:Hx.
  - apply existsb_eqb_In in Hx. split; [auto | intros [H| ->]; assumption].
  - rewrite in_app_iff. cbn. intuition.
Qed.

Lemma Set_add_NoDup (acc : list string) (x : string) :
  NoDup acc -> NoDup (Set_add acc x).
Proof.
  intros Hnd. unfold Set_add.
  destruct (existsb (String.eqb x) acc) eqn:Hx; [assumption|].
  assert (Hnotin : ~ In x acc).
  { intros Hin. apply existsb_eqb_In in Hin. congruence. }
  apply (Permutation_NoDup (Permutation_cons_append acc x)).
  constructor; assumption.
Qed.

Lemma fold_Set_add_In (l acc : list string) (y : string) :
  In y (fold_left Set_add l acc) <-> In y acc \/ In y l.
Proof.
  revert acc. induction l as [|x l IH]; intros acc; cbn.
  - tauto.
  - rewrite IH, Set_add_In. intuition.
Qed.

Lemma fold_Set_add_NoDup (l acc : list string) :
  NoDup acc -> NoDup (fold_left Set_add l acc).
Proof.
  revert acc. induction l as [|x l IH]; intros acc Hnd; cbn.
  - assumption.
  - apply IH, Set_add_NoDup, Hnd.
Qed.

Lemma sort_insert_In (x y : string) (l : list string) :
  In y (sort_insert x l) <-> y = x \/ In y l.
Proof.
  induction l as [|z l IH]; cbn.
  - intuition.
  - destruct (String.leb x z); cbn; [intuition|].
    rewrite IH. intuition.
Qed.

Lemma sort_In (y : string) (l : list string) : In y (sort l) <-> In y l.
Proof.
  induction l as [|x l IH]; cbn; [tauto|].
  rewrite sort_insert_In, IH. intuition.
Qed.

Lemma sort_insert_NoDup (x : string) (l : list string) :
  ~ In x l -> NoDup l -> NoDup (sort_insert x l).
Proof.
  induction l as [|z l IH]; cbn; intros Hnotin Hnd.
  - constructor; [tauto | constructor].
  - destruct (String.leb x z).
    + constructor; assumption.
    + inversion Hnd as [|? ? Hz Hl]; subst. constructor.
      * rewrite sort_insert_In. intuition.
      * apply IH; intuition.
Qed.

Lemma sort_NoDup (l : list string) : NoDup l -> NoDup (sort l).
Proof.
  induction l as [|x l IH]; cbn; intros Hnd; [constructor|].
  inversion Hnd; subst.
  apply sort_insert_NoDup; [rewrite sort_In|]; auto.
Qed.

Lemma leb_of_not_leb (x y : string) :
  String.leb x y = false -> String.leb y x = true.
Proof.
  intros H. destruct (String.leb_total x y); congruence.
Qed.

Lemma sort_insert_Sorted (x : string) (l : list string) :
  Sorted (fun a b => String.leb a b = true) l ->
  Sorted (fun a b => String.leb a b = true) (sort_insert x l).
Proof.
  induction l as [|z l IH]; cbn; intros Hs.
  - repeat constructor.
  - destruct (String.leb x z) eqn:Hxz.
    + constructor; [assumption | constructor; assumption].
    + inversion Hs as [|? ? Hl Hhd]; subst.
      constructor; [apply IH, Hl|].
      destruct l as [|u l]; cbn.
      * constructor. apply leb_of_not_leb, Hxz.
      * destruct (String.leb x u).
        -- constructor. apply leb_of_not_leb, Hxz.
        -- inversion Hhd; subst. constructor. assumption.
Qed.

Lemma sort_Sorted (l : list string) :
  Sorted (fun a b => String.leb a b = true) (sort l).
Proof.
  induction l as [|x l IH]; cbn; [constructor | apply sort_insert_Sorted, IH].
Qed.

Lemma ltb_of_leb_neq (x y : string) :
  String.leb x y = true -> x <> y -> String.ltb x y = true.
Proof.
  unfold String.leb, String.ltb. intros Hle Hne.
  destruct (String.compare x y) eqn:Hcmp; try reflexivity; try discriminate.
  apply String.compare_eq_iff in Hcmp. contradiction.
Qed.

Lemma Sorted_NoDup_strict (l : list string) :
  Sorted (fun a b => String.leb a b = true) l -> NoDup l ->
  strictly_ascending l.
Proof.
  unfold strictly_ascending.
  induction l as [|x l IH]; intros Hs Hnd; [constructor|].
  inversion Hs as [|? ? Hl Hhd]; subst. inversion Hnd as [|? ? Hx Hndl]; subst.
  constructor; [apply IH; assumption|].
  destruct l as [|y l]; constructor.
  inversion Hhd; subst. apply ltb_of_leb_neq; [assumption|].
  intros ->. apply Hx. left. reflexivity.
Qed.

Lemma categories_of_spec (c : ContentConfig) :
  strictly_ascending (categories_of c) /\
  NoDup (categories_of c) /\
  forall x, In x (categories_of c) <->
            exists s, In s (sentences c) /\ sentence_category s = x.
Proof.
  unfold categories_of, new_Set.
  assert (Hnd : NoDup (sort (fold_left Set_add
                               (map sentence_category (sentences c)) []))).
  { apply sort_NoDup, fold_Set_add_NoDup. constructor. }
  split; [|split].
  - apply Sorted_NoDup_strict; [apply sort_Sorted | exact Hnd].
  - exact Hnd.
  - intros x. rewrite sort_In, fold_Set_add_In, in_map_iff. cbn.
    split.
    + intros [[]|(s & Hs & Hin)]. exists s. auto.
    + intros (s & Hin & Hs). right. exists s. auto.
Qed.

(** C10: whenever [getContent] hands out a content object, [getCategories]
    returns, with the same effect on the loader, a list that is in strictly
    ascending order, has no repeated entry, and whose entries are exactly the
    categories of the sentences of that object; when [getContent] throws,
    [getCategories] throws the same error. *)
Theorem getCategories_sorted_distinct :
  forall (w : World) (st : ConfigMapLoader),
    match getContent w st with
    | (Ok c, st') =>
        exists cats,
          getCategories w st = (Ok cats, st') /\
          strictly_ascending cats /\
          NoDup cats /\
          forall x, In x cats <->
                    exists s, In s (sentences (obj_val c)) /\
                              sentence_category s = x
    | (Throw e, st') => getCategories w st = (Throw e, st')
    end.
Proof.
  intros w st. unfold getCategories, bind, ret.
  destruct (getContent w st) as [[c|e] st']; [|reflexivity].
  exists (categories_of (obj_val c)). split; [reflexivity|].
  apply categories_of_spec.
Qed.

(** ** Loader and hook: category filter *)

Lemma filter_nil_iff {A : Type} (f : A -> bool) (l : list A) :
  filter f l = [] <-> forall x, In x l -> f x = false.
Proof.
  induction l as [|a l IH]; cbn.
  - split; [intros _ x [] | reflexivity].
  - destruct (f a) eqn:Ha.
    + split; [discriminate|]. intros H. specialize (H a (or_introl eq_refl)).
      congruence.
    + rewrite IH. split.
      * intros H x [<-|Hin]; auto.
      * intros H x Hin. apply H. right. exact Hin.
Qed.

(** C4 (as stated, refuted): on the fixture content, the loader answers the
    empty category string with all three sentences although none has an empty
    category, and the hook's [getSentencesByCategory] finds nothing for
    [kubernetes] although a sentence has the category [Kubernetes]. *)
Lemma category_filter_exceptions :
  let m := ContentManager.mount 20 (sentences Examples.test_config)
             (acronyms Examples.test_config) in
  fst (getSentences AsciiCase.toLowerCase (mkWorld Examples.good_disk 1 1)
         (Some "") Examples.loaded) = Ok (sentences Examples.test_config) /\
  filter (fun s => String.eqb (AsciiCase.toLowerCase (sentence_category s))
                              (AsciiCase.toLowerCase ""))
         (sentences Examples.test_config) = [] /\
  ContentManager.getSentencesByCategory "kubernetes" m = [] /\
  filter (fun s => String.eqb (AsciiCase.toLowerCase (sentence_category s))
                              (AsciiCase.toLowerCase "kubernetes"))
         (sentences Examples.test_config) <> [].
Proof.
  cbv zeta. repeat split; try reflexivity.
  vm_compute. discriminate.
Qed.

(** C4 (amended): whenever [getContent] hands out a content object, the
    loader's [getSentences] returns, without throwing, all its sentences when
    the category is absent or the empty string, and otherwise exactly the
    sentences, in order, whose lower-cased category equals the lower-cased
    argument, hence the empty list when no sentence matches; the hook's
    [getSentencesByCategory] returns exactly the sentences whose category is
    the argument itself, compared case-sensitively. *)
Theorem getSentences_by_category :
  forall (toLowerCase : string -> string) (w : World) (st : ConfigMapLoader)
         (category : option string),
    match getContent w st with
    | (Ok c, st') =>
        exists result,
          getSentences toLowerCase w category st = (Ok result, st') /\
          (category = None \/ category = Some "" ->
           result = sentences (obj_val c)) /\
          (forall cat, category = Some cat -> cat <> "" ->
             (forall s, In s result <->
                        In s (sentences (obj_val c)) /\
                        toLowerCase (sentence_category s) = toLowerCase cat) /\
             result =
               filter (fun s => String.eqb (toLowerCase (sentence_category s))
                                           (toLowerCase cat))
                      (sentences (obj_val c)) /\
             ((forall s, In s (sentences (obj_val c)) ->
                         toLowerCase (sentence_category s) <> toLowerCase cat) ->
              result = []))
    | (Throw e, st') => getSentences toLowerCase w category st = (Throw e, st')
    end /\
    forall (m : ContentManager.Manager) (cat : string) (s : Sentence),
      In s (ContentManager.getSentencesByCategory cat m) <->
      In s (ContentManager.state_sentences m) /\ sentence_category s = cat.
Proof.
  intros toLowerCase w st category. split.
  - unfold getSentences, bind, ret.
    destruct (getContent w st) as [[c|e] st']; [|reflexivity].
    eexists. split; [reflexivity|]. split.
    + intros [->| ->]; reflexivity.
    + intros cat -> Hne. cbn.
      destruct (String.eqb_spec cat ""); [contradiction|].
      split; [|split].
      * intros s. rewrite filter_In, String.eqb_eq. tauto.
      * reflexivity.
      * intros Hnone. apply filter_nil_iff. intros s Hin.
        apply String.eqb_neq. auto.
  - intros m cat s. unfold ContentManager.getSentencesByCategory.
    rewrite filter_In, String.eqb_eq. tauto.
Qed.

End LoaderFacts.

(** ** Sentences route: pagination *)

Section ApiFacts.
Import JsArray Api.
Local Open Scope Z_scope.

Lemma firstn_min_length {A : Type} (n : nat) (l : list A) :
  firstn (Nat.min n (List.length l)) l = firstn n l.
Proof.
  destruct (Nat.le_ge_cases n (List.length l)) as [Hle|Hge].
  - now rewrite Nat.min_l.
  - rewrite Nat.min_r by assumption.
    now rewrite firstn_all, firstn_all2.
Qed.

(** [slice] with a non-negative start and a non-negative length keeps, after
    the first [o] elements, at most [l] elements. *)
Lemma slice_window {A : Type} (ss : list A) (o l : Z) :
  0 <= o -> 0 <= l ->
  slice ss o (o + l) = firstn (Z.to_nat l) (skipn (Z.to_nat o) ss).
Proof.
  intros Ho Hl. unfold slice.
  destruct (Z.ltb_spec o 0); [lia|].
  destruct (Z.ltb_spec (o + l) 0); [lia|].
  set (len := Z.of_nat (List.length ss)).
  destruct (Z.le_ge_cases len o) as [Hout|Hin].
  - rewrite (Z.min_r o len) by assumption.
    rewrite !skipn_all2 by (subst len; lia).
    now rewrite !firstn_nil.
  - rewrite (Z.min_l o len) by assumption.
    rewrite <- (firstn_min_length (Z.to_nat l)).
    f_equal. rewrite length_skipn. subst len. lia.
Qed.




(** A query outside the schema raises a [ValidationError], which the error
    handler answers with 400. *)
Lemma get_sentences_route_rejects toLowerCase w q svc :
  SentencesQuerySchema q = None ->
  exists e,
    get_sentences_route toLowerCase w q svc = (Raised e, svc) /\
    ErrorHandler.errorHandler e = 400.
Proof.
  intros Hq. unfold get_sentences_route. rewrite Hq.
  eexists. split; reflexivity.
Qed.

Lemma limit_above_cap_rejected category n offset :
  100 < n -> SentencesQuerySchema (mkQuery category (QValue n) offset) = None.
Proof.
  intros Hn. unfold SentencesQuerySchema, z_number; cbn.
  destruct (Z.leb_spec 1 n); cbn; [|reflexivity].
  destruct (Z.leb_spec n 100); [lia | reflexivity].
Qed.


End ApiFacts.

(** ** Content manager: history *)

Section ContentManagerFacts.
Import JsArray ContentManager.

Lemma slice_prefix {A : Type} (l : list A) (n : Z) :
  (0 <= n)%Z -> slice l 0 n = firstn (Z.to_nat n) l.
Proof.
  intros Hn. change n with (0 + n)%Z at 1.
  rewrite slice_window by lia. reflexivity.
Qed.

Lemma In_firstn {A : Type} (n : nat) (l : list A) (x : A) :
  In x (firstn n l) -> In x l.
Proof.
  revert l. induction n as [|n IH]; intros [|a l]; cbn; try tauto.
  intros [->|Hin]; auto.
Qed.

Lemma NoDup_firstn {A : Type} (n : nat) (l : list A) :
  NoDup l -> NoDup (firstn n l).
Proof.
  revert l. induction n as [|n IH]; intros [|a l] Hnd; cbn; try constructor.
  - inversion Hnd; subst. intros Hin. apply In_firstn in Hin. contradiction.
  - inversion Hnd; subst. auto.
Qed.

Lemma history_of_set_same t l h : history_of t (set_history_of t l h) = l.
Proof. destruct t; reflexivity. Qed.

Lemma history_of_set_other t t' l h :
  t <> t' -> history_of t' (set_history_of t l h) = history_of t' h.
Proof. destruct t, t'; intros Hne; try reflexivity; contradiction. Qed.

Lemma includes_In (l : list string) (x : string) :
  includes l x = true <-> In x l.
Proof. apply existsb_eqb_In. Qed.

Lemma filter_neq_In (id x : string) (l : list string) :
  In x (filter (fun item => negb (String.eqb item id)) l) <->
  In x l /\ x <> id.
Proof.
  rewrite filter_In, negb_true_iff, String.eqb_neq. tauto.
Qed.

Lemma filter_neq_id (id : string) (l : list string) :
  ~ In id l -> filter (fun item => negb (String.eqb item id)) l = l.
Proof.
  induction l as [|a l IH]; cbn; intros Hnotin; [reflexivity|].
  destruct (String.eqb_spec a id) as [->|Hne]; cbn.
  - exfalso. apply Hnotin. now left.
  - f_equal. apply IH. tauto.
Qed.

(** What [addToHistory] writes: the list of its type becomes the id followed
    by the earlier ids without it, cut to the first [maxHistorySize]. *)
Lemma addToHistory_history t id m :
  (0 <= maxHistorySize m)%Z ->
  history_of t (history (addToHistory t id m)) =
  firstn (Z.to_nat (maxHistorySize m))
    (id :: filter (fun item => negb (String.eqb item id))
             (history_of t (history m))).
Proof.
  intros Hsize. unfold addToHistory, saveHistoryToStorage. cbn.
  rewrite history_of_set_same. apply slice_prefix, Hsize.
Qed.

Lemma addToHistory_other t t' id m :
  t <> t' ->
  history_of t' (history (addToHistory t id m)) = history_of t' (history m).
Proof.
  intros Hne. unfold addToHistory, saveHistoryToStorage. cbn.
  apply history_of_set_other, Hne.
Qed.

Lemma ContentType_eq_dec (t t' : ContentType) : {t = t'} + {t <> t'}.
Proof. decide equality. Qed.

Lemma addToHistory_ok size ss aa t id m :
  (0 <= size)%Z ->
  manager_ok size ss aa m -> manager_ok size ss aa (addToHistory t id m).
Proof.
  intros Hsize (Hmax & Hss & Haa & Hh & Hst).
  assert (Hnew : history_ok size (history (addToHistory t id m))).
  2:{ unfold manager_ok.
      split; [exact Hmax|]. split; [exact Hss|]. split; [exact Haa|].
      split; [exact Hnew | exact Hnew]. }
  intros t0. split.
  - destruct (ContentType_eq_dec t t0) as [<-|Hne].
    + rewrite addToHistory_history by lia.
      apply NoDup_firstn. constructor.
      * rewrite filter_neq_In. tauto.
      * apply NoDup_filter, Hh.
    + rewrite addToHistory_other by assumption. apply Hh.
  - destruct (ContentType_eq_dec t t0) as [<-|Hne].
    + rewrite addToHistory_history by lia.
      pose proof (firstn_le_length (Z.to_nat (maxHistorySize m))
                    (id :: filter (fun item => negb (String.eqb item id))
                             (history_of t (history m)))).
      lia.
    + rewrite addToHistory_other by assumption. apply Hh.
Qed.

Lemma history_ok_empty size : (0 <= size)%Z -> history_ok size empty_history.
Proof. intros Hsize [|]; cbn; (split; [constructor | lia]). Qed.

Lemma mount_ok size ss aa :
  (0 <= size)%Z -> manager_ok size ss aa (mount size ss aa).
Proof.
  intros Hsize. unfold manager_ok, mount; cbn.
  repeat (split; [reflexivity|]).
  split; [apply history_ok_empty, Hsize | exact I].
Qed.

Lemma getRandomSentence_cases category r m :
  getRandomSentence category r m = (None, m) \/
  exists s, In s (getFilteredSentences category m) /\
            getRandomSentence category r m =
              (Some s, addToHistory Sentences (sentence_id s) m).
Proof.
  unfold getRandomSentence.
  destruct (getFilteredSentences category m) as [|a l] eqn:Hav; [now left|].
  set (unshown := filter _ (a :: l)).
  set (cands := match unshown with [] => a :: l | _ :: _ => unshown end).
  destruct (nth_error cands (randomIndex r (List.length cands)))
    as [sel|] eqn:Hnth; [|now left].
  right. exists sel. split; [|reflexivity].
  apply nth_error_In in Hnth. subst cands.
  destruct unshown eqn:Hun; [assumption|].
  rewrite <- Hun in Hnth. subst unshown.
  apply filter_In in Hnth. tauto.
Qed.

Lemma getRandomAcronym_cases r m :
  getRandomAcronym r m = (None, m) \/
  exists a, In a (state_acronyms m) /\
            getRandomAcronym r m =
              (Some a, addToHistory Acronyms (acronym_id a) m).
Proof.
  unfold getRandomAcronym.
  destruct (state_acronyms m) as [|a l] eqn:Hav; [now left|].
  set (unshown := filter _ (a :: l)).
  set (cands := match unshown with [] => a :: l | _ :: _ => unshown end).
  destruct (nth_error cands (randomIndex r (List.length cands)))
    as [sel|] eqn:Hnth; [|now left].
  right. exists sel. split; [|reflexivity].
  apply nth_error_In in Hnth. subst cands.
  destruct unshown eqn:Hun; [assumption|].
  rewrite <- Hun in Hnth. subst unshown.
  apply filter_In in Hnth. tauto.
Qed.

Lemma exec_ok size ss aa op sh m :
  (0 <= size)%Z ->
  manager_ok size ss aa m -> manager_ok size ss aa (snd (exec op (sh, m))).
Proof.
  intros Hsize Hok. destruct op as [category r|r| | |]; cbn.
  - destruct (getRandomSentence_cases category r m) as [->|(s & _ & ->)];
      cbn; [assumption | now apply addToHistory_ok].
  - destruct (getRandomAcronym_cases r m) as [->|(a & _ & ->)];
      cbn; [assumption | now apply addToHistory_ok].
  - destruct Hok as (Hmax & Hss & Haa & Hh & Hst).
    unfold manager_ok, clearHistory; cbn.
    split; [exact Hmax|]. split; [exact Hss|]. split; [exact Haa|].
    split; apply history_ok_empty, Hsize.
  - destruct Hok as (Hmax & Hss & Haa & Hh & Hst).
    unfold loadHistoryFromStorage.
    destruct (storage m) as [h|] eqn:Hsto.
    + unfold manager_ok; cbn.
      split; [exact Hmax|]. split; [exact Hss|]. split; [exact Haa|].
      split; exact Hst.
    + unfold manager_ok. rewrite Hsto. auto.
  - destruct Hok as (Hmax & Hss & Haa & Hh & Hst).
    unfold remount, loadHistoryFromStorage; cbn.
    destruct (storage m) as [h|] eqn:Hsto.
    + unfold manager_ok; cbn.
      split; [exact Hmax|]. split; [exact Hss|]. split; [exact Haa|].
      split; exact Hst.
    + unfold manager_ok; cbn.
      split; [exact Hmax|]. split; [exact Hss|]. split; [exact Haa|].
      split; [apply history_ok_empty, Hsize | exact I].
Qed.

Lemma session_from_ok size ss aa ops sh m :
  (0 <= size)%Z ->
  manager_ok size ss aa m ->
  manager_ok size ss aa
    (snd (fold_left (fun x op => exec op x) ops (sh, m))).
Proof.
  intros Hsize. revert sh m.
  induction ops as [|op ops IH]; intros sh m Hok; [assumption|].
  cbn [fold_left].
  pose proof (exec_ok size ss aa op sh m Hsize Hok) as Hok'.
  destruct (exec op (sh, m)) as [sh' m']. apply IH, Hok'.
Qed.

(** C8: in every session of the hook mounted with a non-negative
    [maxHistorySize], each history list has no repeated id and at most
    [maxHistorySize] entries; adding an id puts it first, keeps the earlier
    ids behind it in their order without the id itself, and cuts the list to
    the first [maxHistorySize] entries, so that on a full list not holding
    the id it is the last, oldest entry that goes. *)
Theorem history_bounded_distinct_recent_first :
  forall (size : Z) (ss : list Sentence) (aa : list Acronym) (ops : list Op)
         (t : ContentType),
    (0 <= size)%Z ->
    let m := snd (session ops (mount size ss aa)) in
    let h := history_of t (history m) in
    NoDup h /\
    (Z.of_nat (List.length h) <= size)%Z /\
    forall id,
      let h' := history_of t (history (addToHistory t id m)) in
      h' = firstn (Z.to_nat size)
             (id :: filter (fun item => negb (String.eqb item id)) h) /\
      NoDup h' /\
      (Z.of_nat (List.length h') <= size)%Z /\
      ((1 <= size)%Z -> hd_error h' = Some id) /\
      ((1 <= size)%Z -> ~ In id h -> Z.of_nat (List.length h) = size ->
       h' = id :: removelast h).
Proof.
  intros size ss aa ops t Hsize m h.
  assert (Hok : manager_ok size ss aa m).
  { apply session_from_ok; [assumption | now apply mount_ok]. }
  pose proof Hok as (Hmax & _ & _ & Hh & _).
  split; [apply Hh|]. split; [apply Hh|].
  intros id h'.
  assert (Eh' : h' = firstn (Z.to_nat size)
                       (id :: filter (fun item => negb (String.eqb item id)) h)).
  { subst h'. rewrite addToHistory_history by lia. now rewrite Hmax. }
  pose proof (addToHistory_ok size ss aa t id m Hsize Hok)
    as (_ & _ & _ & Hh' & _).
  split; [exact Eh'|]. split; [apply Hh'|]. split; [apply Hh'|]. split.
  - intros H1. rewrite Eh'.
    destruct (Z.to_nat size) as [|n] eqn:Hn; [lia | reflexivity].
  - intros H1 Hnotin Hfull. rewrite Eh', (filter_neq_id _ _ Hnotin).
    destruct (Z.to_nat size) as [|n] eqn:Hn; [lia|]. cbn. f_equal.
    rewrite removelast_firstn_len. f_equal. lia.
Qed.

(** A window of two slots: the third id pushes the first one out. *)
Lemma history_bounded_distinct_recent_first_witness :
  history_of Sentences
    (history (addToHistory Sentences "c"
       (snd (session [RandomSentence None 0; RandomSentence None 0]
               (mount 2 (sentences Examples.test_config) []))))) =
  ["c"; "test-devops-1"].
Proof.
  destruct (history_bounded_distinct_recent_first 2
              (sentences Examples.test_config) []
              [RandomSentence None 0; RandomSentence None 0] Sentences)
    as (_ & _ & Hadd); [lia|].
  destruct (Hadd "c") as (Heq & _). exact Heq.
Defined.

(** ** Content manager: random selection *)

(** Handing out [id] keeps [recent_ok] when the window has two slots. *)
Lemma addToHistory_recent t id sh sh' m :
  (2 <= maxHistorySize m)%Z ->
  recent_ok sh m ->
  shown_of t sh' = id :: shown_of t sh ->
  (forall t', t <> t' -> shown_of t' sh' = shown_of t' sh) ->
  recent_ok sh' (addToHistory t id m).
Proof.
  intros Hsize Hrec Hsame Hother t0.
  destruct (ContentType_eq_dec t t0) as [<-|Hne].
  - rewrite Hsame, addToHistory_history by lia.
    destruct (Hrec t) as (Hhd & Hin).
    destruct (Z.to_nat (maxHistorySize m)) as [|[|n]] eqn:Hn; try lia.
    split; [right; reflexivity|].
    intros x Hx.
    destruct (shown_of t sh) as [|y rest] eqn:Hsh.
    { cbn in Hx. destruct Hx as [<-|[]]. now left. }
    cbn in Hx. destruct Hx as [<-|[<-|[]]]; [now left|].
    destruct Hhd as [Hnil|Hhd]; [discriminate|].
    destruct (history_of t (history m)) as [|z h0]; [discriminate|].
    cbn in Hhd. injection Hhd as <-.
    destruct (String.eqb_spec y id) as [->|Hyid]; [now left|].
    right. cbn. apply String.eqb_neq in Hyid. rewrite Hyid. cbn. now left.
  - rewrite (Hother _ Hne), addToHistory_other by assumption. apply Hrec.
Qed.

Lemma exec_recent size ss aa op sh m :
  (2 <= size)%Z ->
  is_random op = true ->
  manager_ok size ss aa m ->
  recent_ok sh m ->
  recent_ok (fst (exec op (sh, m))) (snd (exec op (sh, m))).
Proof.
  intros Hsize Hop (Hmax & _) Hrec.
  destruct op as [category r|r| | |]; try discriminate; cbn.
  - destruct (getRandomSentence_cases category r m) as [->|(s & _ & ->)];
      cbn; [assumption|].
    apply (addToHistory_recent Sentences _ sh); try assumption; try lia.
    + reflexivity.
    + intros [|] Hne; [contradiction | reflexivity].
  - destruct (getRandomAcronym_cases r m) as [->|(a & _ & ->)];
      cbn; [assumption|].
    apply (addToHistory_recent Acronyms _ sh); try assumption; try lia.
    + reflexivity.
    + intros [|] Hne; [reflexivity | contradiction].
Qed.

Lemma session_from_recent size ss aa ops sh m :
  (2 <= size)%Z ->
  forallb is_random ops = true ->
  manager_ok size ss aa m ->
  recent_ok sh m ->
  recent_ok (fst (fold_left (fun x op => exec op x) ops (sh, m)))
            (snd (fold_left (fun x op => exec op x) ops (sh, m))).
Proof.
  intros Hsize. revert sh m.
  induction ops as [|op ops IH]; intros sh m Hops Hok Hrec; [assumption|].
  cbn in Hops. apply andb_true_iff in Hops as (Hop & Hops).
  cbn [fold_left].
  pose proof (exec_ok size ss aa op sh m ltac:(lia) Hok) as Hok'.
  pose proof (exec_recent size ss aa op sh m Hsize Hop Hok Hrec) as Hrec'.
  destruct (exec op (sh, m)) as [sh' m']. now apply IH.
Qed.

(** Filtering a pool keeps its ids distinct. *)
Lemma filter_keeps_distinct_ids {A : Type} (id_of : A -> string)
    (keep : A -> bool) (pool : list A) :
  NoDup (map id_of pool) -> NoDup (map id_of (filter keep pool)).
Proof.
  intros Hnd. induction pool as [|a pool IH]; cbn in *; [constructor|].
  inversion Hnd as [|? ? Hnotin Hrest]; subst.
  destruct (keep a); cbn; [|auto].
  constructor; [|auto].
  intros Hin. apply Hnotin. apply in_map_iff in Hin as (x & <- & Hx).
  apply in_map. apply filter_In in Hx. tauto.
Qed.

(** A pool of distinct ids that outnumbers the history has an item whose id
    is not in the history. *)
Lemma unshown_nonempty {A : Type} (id_of : A -> string) (hist : list string)
    (pool : list A) :
  NoDup (map id_of pool) ->
  (List.length hist < List.length pool)%nat ->
  filter (fun a => negb (includes hist (id_of a))) pool <> [].
Proof.
  intros Hnd Hlen Hnil.
  assert (Hincl : incl (map id_of pool) hist).
  { intros x Hx. apply in_map_iff in Hx as (a & <- & Ha).
    pose proof (proj1 (filter_nil_iff _ _) Hnil a Ha) as Hf.
    apply negb_false_iff, includes_In in Hf. exact Hf. }
  pose proof (NoDup_incl_length Hnd Hincl) as Hle.
  rewrite length_map in Hle. lia.
Qed.

Lemma nth_error_randomIndex {A : Type} (r : nat) (l : list A) :
  l <> [] -> exists a, nth_error l (randomIndex r (List.length l)) = Some a.
Proof.
  intros Hne. unfold randomIndex.
  destruct (nth_error l (r mod List.length l)) as [a|] eqn:Hnth; [eauto|].
  apply nth_error_None in Hnth.
  assert (List.length l <> 0%nat) by (destruct l; [congruence | discriminate]).
  pose proof (Nat.mod_upper_bound r (List.length l) ltac:(assumption)). lia.
Qed.

Lemma getRandomSentence_unshown category r m :
  NoDup (map sentence_id (state_sentences m)) ->
  (List.length (history_sentences (history m)) <
   List.length (getFilteredSentences category m))%nat ->
  exists s,
    getRandomSentence category r m =
      (Some s, addToHistory Sentences (sentence_id s) m) /\
    In s (getFilteredSentences category m) /\
    ~ In (sentence_id s) (history_sentences (history m)).
Proof.
  intros Hnd Hlen.
  assert (Hpool : NoDup (map sentence_id (getFilteredSentences category m))).
  { unfold getFilteredSentences. destruct category as [cat|]; [|assumption].
    destruct (String.eqb cat ""); [assumption|].
    now apply filter_keeps_distinct_ids. }
  pose proof (unshown_nonempty sentence_id _ _ Hpool Hlen) as Hun.
  unfold getRandomSentence.
  destruct (getFilteredSentences category m) as [|a0 l0] eqn:Hav;
    [cbn in Hlen; lia|].
  destruct (filter (fun s => negb (includes (history_sentences (history m))
                                     (sentence_id s))) (a0 :: l0))
    as [|u us] eqn:Hfilter; [contradiction|].
  destruct (nth_error_randomIndex r (u :: us) ltac:(discriminate))
    as (sel & Hsel).
  rewrite Hsel. exists sel. split; [reflexivity|].
  apply nth_error_In in Hsel. rewrite <- Hfilter in Hsel.
  apply filter_In in Hsel as (Hin & Hneg). split; [assumption|].
  apply negb_true_iff in Hneg. intros Hc. apply includes_In in Hc. congruence.
Qed.

Lemma getRandomAcronym_unshown r m :
  NoDup (map acronym_id (state_acronyms m)) ->
  (List.length (history_acronyms (history m)) <
   List.length (state_acronyms m))%nat ->
  exists a,
    getRandomAcronym r m =
      (Some a, addToHistory Acronyms (acronym_id a) m) /\
    In a (state_acronyms m) /\
    ~ In (acronym_id a) (history_acronyms (history m)).
Proof.
  intros Hnd Hlen.
  pose proof (unshown_nonempty acronym_id _ _ Hnd Hlen) as Hun.
  unfold getRandomAcronym.
  destruct (state_acronyms m) as [|a0 l0] eqn:Hav; [cbn in Hlen; lia|].
  destruct (filter (fun a => negb (includes (history_acronyms (history m))
                                     (acronym_id a))) (a0 :: l0))
    as [|u us] eqn:Hfilter; [contradiction|].
  destruct (nth_error_randomIndex r (u :: us) ltac:(discriminate))
    as (sel & Hsel).
  rewrite Hsel. exists sel. split; [reflexivity|].
  apply nth_error_In in Hsel. rewrite <- Hfilter in Hsel.
  apply filter_In in Hsel as (Hin & Hneg). split; [assumption|].
  apply negb_true_iff in Hneg. intros Hc. apply includes_In in Hc. congruence.
Qed.

(** C2 (as stated, refuted): with a history window of two and a pool of two
    sentences, which is not smaller than the window, the third call returns
    the sentence returned by the second call. *)
Lemma getRandomSentence_repeats_when_pool_fills_window :
  let pool := [ mkSentence "a" "First..." "DevOps";
                mkSentence "b" "Second..." "DevOps" ] in
  let '(sh, m) := session [RandomSentence None 0; RandomSentence None 0]
                    (mount 2 pool []) in
  (maxHistorySize m <= Z.of_nat (List.length (getFilteredSentences None m)))%Z /\
  shown_sentences sh = ["b"; "a"] /\
  fst (getRandomSentence None 1 m) = Some (mkSentence "b" "Second..." "DevOps").
Proof.
  vm_compute. repeat split; intros H; discriminate H.
Qed.

(** The same happens with a window of one slot although the pool of two is
    larger: the id shown before the latest one is no longer remembered. *)
Lemma getRandomSentence_window_of_one :
  let pool := [ mkSentence "a" "First..." "DevOps";
                mkSentence "b" "Second..." "DevOps" ] in
  let '(sh, m) := session [RandomSentence None 0; RandomSentence None 0]
                    (mount 1 pool []) in
  shown_sentences sh = ["b"; "a"] /\
  forall r, fst (getRandomSentence None r m) =
            Some (mkSentence "a" "First..." "DevOps").
Proof.
  cbv zeta. split; [reflexivity|]. intros r.
  unfold getRandomSentence, randomIndex.
  cbn -[Nat.modulo]. now rewrite Nat.mod_1_r.
Qed.

(** And with two sentences sharing an id in a pool of three. *)
Lemma getRandomSentence_shared_id :
  let pool := [ mkSentence "a" "First..." "DevOps";
                mkSentence "a" "Second..." "DevOps";
                mkSentence "b" "Third..." "DevOps" ] in
  let '(sh, m) := session [RandomSentence None 0; RandomSentence None 0]
                    (mount 2 pool []) in
  shown_sentences sh = ["b"; "a"] /\
  fst (getRandomSentence None 2 m) = Some (mkSentence "b" "Third..." "DevOps").
Proof.
  vm_compute. split; reflexivity.
Qed.

(** C2 (amended): in every session of [getRandomSentence] and
    [getRandomAcronym] calls on the hook mounted with a history window of at
    least two and content whose ids are distinct within each array, a further
    call whose pool (the sentences of the requested category, respectively
    all acronyms) is larger than [maxHistorySize] returns an item whose id is
    not in the history, hence differs from the ids returned by the two latest
    calls for that content type. *)
Theorem getRandom_avoids_recent :
  forall (size : Z) (ss : list Sentence) (aa : list Acronym) (ops : list Op),
    (2 <= size)%Z ->
    NoDup (map sentence_id ss) ->
    NoDup (map acronym_id aa) ->
    forallb is_random ops = true ->
    let sh := fst (session ops (mount size ss aa)) in
    let m := snd (session ops (mount size ss aa)) in
    (forall category r,
       (size < Z.of_nat (List.length (getFilteredSentences category m)))%Z ->
       exists s,
         fst (getRandomSentence category r m) = Some s /\
         ~ In (sentence_id s) (history_sentences (history m)) /\
         ~ In (sentence_id s) (firstn 2 (shown_sentences sh))) /\
    (forall r,
       (size < Z.of_nat (List.length (state_acronyms m)))%Z ->
       exists a,
         fst (getRandomAcronym r m) = Some a /\
         ~ In (acronym_id a) (history_acronyms (history m)) /\
         ~ In (acronym_id a) (firstn 2 (shown_acronyms sh))).
Proof.
  intros size ss aa ops Hsize Hss Haa Hops sh m.
  assert (Hok : manager_ok size ss aa m).
  { apply session_from_ok; [lia | apply mount_ok; lia]. }
  assert (Hrec : recent_ok sh m).
  { apply (session_from_recent size ss aa); try assumption.
    - apply mount_ok; lia.
    - intros [|]; cbn; split; auto; intros x []. }
  destruct Hok as (Hmax & Hstate_s & Hstate_a & Hh & _).
  split.
  - intros category r Hpool.
    destruct (Hh Sentences) as (_ & Hlen). cbn in Hlen.
    destruct (getRandomSentence_unshown category r m) as (s & -> & _ & Hfresh).
    + now rewrite Hstate_s.
    + lia.
    + exists s. split; [reflexivity|]. split; [assumption|].
      intros Hin. apply Hfresh. apply (proj2 (Hrec Sentences)), Hin.
  - intros r Hpool.
    destruct (Hh Acronyms) as (_ & Hlen). cbn in Hlen.
    destruct (getRandomAcronym_unshown r m) as (a & -> & _ & Hfresh).
    + now rewrite Hstate_a.
    + lia.
    + exists a. split; [reflexivity|]. split; [assumption|].
      intros Hin. apply Hfresh. apply (proj2 (Hrec Acronyms)), Hin.
Qed.

(** With a window of two and the three fixture sentences, the third call
    returns a sentence that is neither of the two shown before. *)
Lemma getRandom_avoids_recent_witness :
  exists s,
    fst (getRandomSentence None 7
           (snd (session [RandomSentence None 0; RandomSentence None 0]
                   (mount 2 (sentences Examples.test_config) [])))) = Some s /\
    ~ In (sentence_id s) ["test-devops-1"; "test-k8s-1"].
Proof.
  assert (Hids : NoDup (map sentence_id (sentences Examples.test_config))).
  { cbn. repeat constructor; cbn; intros H;
      repeat (destruct H as [H|H]; [discriminate H|]); exact H. }
  destruct (getRandom_avoids_recent 2 (sentences Examples.test_config) []
              [RandomSentence None 0; RandomSentence None 0]
              ltac:(lia) Hids (NoDup_nil _) eq_refl) as (Hs & _).
  destruct (Hs None 7%nat) as (s & Hsel & _ & Hrecent).
  - vm_compute. reflexivity.
  - exists s. split; [exact Hsel | exact Hrecent].
Defined.

End ContentManagerFacts.

(* ================================================================== *)
(** * Further properties of the loader *)

Section LoaderLifecycle.

Lemma fresh_initialize_result (timeout : Z) (fallback : option ContentConfig)
    (w : World) :
  match fst (initialize w (construct timeout fallback)) with
  | Ok _ =>
      ((exists data, disk_content w = Ok data) \/ fallback <> None) /\
      isContentAvailable (snd (initialize w (construct timeout fallback)))
      = true
  | Throw _ => (forall data, disk_content w <> Ok data) /\ fallback = None
  end.
Proof.
  unfold initialize, isContentAvailable.
  destruct (disk_content w) as [data|e] eqn:Hdisk.
  - rewrite (loadContent_success w (construct timeout fallback) data
               eq_refl Hdisk).
    cbn. split; [eauto | reflexivity].
  - rewrite (loadContent_failure w (construct timeout fallback) e
               eq_refl Hdisk).
    destruct fallback as [fb|]; cbn.
    + split; [right; discriminate | reflexivity].
    + split; [discriminate | reflexivity].
Qed.

(** X1: [initialize] on a newly built loader caches the content of the files
    when they are valid, otherwise the fallback content when one was given,
    and throws the load error, caching nothing, when there is neither. *)
Theorem initialize_outcome :
  forall (timeout : Z) (fallback : option ContentConfig) (w : World),
    let r := fst (initialize w (construct timeout fallback)) in
    let st := snd (initialize w (construct timeout fallback)) in
    isLoading st = false /\
    match disk_content w, fallback with
    | Ok data, _ =>
        r = Ok tt /\ cachedContent st = Some (mkObj 1 data) /\
        lastLoadTime st = time_load w
    | Throw e, Some fb =>
        r = Ok tt /\ cachedContent st = Some (mkObj 0 fb) /\
        lastLoadTime st = time_load w
    | Throw e, None => r = Throw e /\ cachedContent st = None
    end.
Proof.
  intros timeout fallback w r st. subst r st. unfold initialize.
  split; [apply loadContent_idle; reflexivity|].
  destruct (disk_content w) as [data|e] eqn:Hdisk.
  - rewrite (loadContent_success w (construct timeout fallback) data
               eq_refl Hdisk).
    cbn. auto.
  - rewrite (loadContent_failure w (construct timeout fallback) e
               eq_refl Hdisk).
    destruct fallback as [fb|]; cbn; auto.
Qed.







(** X4: a forced reload whose load fails never keeps what was cached
    before.  Without fallback content it throws the load error and leaves the
    loader without content, and the file-watch callback reports
    [contentError]; with fallback content it returns normally with the
    fallback object cached and announced by [contentUpdated], and the
    file-watch callback reports [contentReloaded]. *)
Theorem forced_reload_failure :
  forall (w : World) (st : ConfigMapLoader) (e : Error),
    isLoading st = false ->
    disk_content w = Throw e ->
    let r := fst (reloadContent w st) in
    let st' := snd (reloadContent w st) in
    match fallbackContent st with
    | None =>
        r = Throw e /\ isContentAvailable st' = false /\
        hd_error (log (snd (onFileChangeTimer w st))) = Some (ContentError e)
    | Some fb =>
        r = Ok tt /\ cachedContent st' = Some fb /\
        hd_error (log st') = Some (ContentUpdated fb) /\
        hd_error (log (snd (onFileChangeTimer w st))) = Some ContentReloaded
    end.
Proof.
  intros w st e Hidle Hdisk r st'. subst r st'.
  unfold onFileChangeTimer, reloadContent, bind, modify, isContentAvailable.
  rewrite (loadContent_failure w (set_cachedContent None st) e Hidle Hdisk).
  cbn. destruct (fallbackContent st); cbn; auto.
Qed.

Lemma forced_reload_failure_witness :
  fst (reloadContent (mkWorld Examples.broken_disk 10 10) Examples.loaded) =
    Throw (FailedToLoadJsonFile SentencesFile) /\
  cachedContent (snd (reloadContent (mkWorld Examples.broken_disk 10 10)
                        Examples.loaded_with_fallback)) =
    Some (mkObj 0 Examples.fallback_config).
Proof.
  split.
  - apply (forced_reload_failure (mkWorld Examples.broken_disk 10 10)
             Examples.loaded (FailedToLoadJsonFile SentencesFile)
             eq_refl eq_refl).
  - apply (forced_reload_failure (mkWorld Examples.broken_disk 10 10)
             Examples.loaded_with_fallback
             (FailedToLoadJsonFile SentencesFile) eq_refl eq_refl).
Defined.

(** X5: a forced reload that finds valid files caches a new object holding
    their content and announces it, and a [getContent] that follows within
    the timeout returns this object without reading the files again. *)
Theorem reload_then_get :
  forall (w1 w2 : World) (st : ConfigMapLoader) (data : ContentConfig),
    isLoading st = false ->
    disk_content w1 = Ok data ->
    (time_call w2 - time_load w1 < cacheTimeout st)%Z ->
    let st1 := snd (reloadContent w1 st) in
    fst (reloadContent w1 st) = Ok tt /\
    hd_error (log st1) = Some (ContentUpdated (mkObj (next_ref st) data)) /\
    getContent w2 st1 = (Ok (mkObj (next_ref st) data), st1).
Proof.
  intros w1 w2 st data Hidle Hdisk Hage st1. subst st1.
  unfold reloadContent, bind, modify.
  rewrite (loadContent_success w1 (set_cachedContent None st) data Hidle Hdisk).
  cbn. repeat split.
  unfold getContent, cache_hit; cbn.
  destruct (Z.ltb_spec (time_call w2 - time_load w1) (cacheTimeout st));
    [reflexivity | lia].
Qed.

Lemma reload_then_get_witness :
  fst (getContent (mkWorld Examples.missing_disk 600 600)
         (snd (reloadContent (mkWorld Examples.bare_disk 100 100)
                 Examples.loaded))) =
  Ok (mkObj 2 Examples.test_config).
Proof.
  destruct (reload_then_get (mkWorld Examples.bare_disk 100 100)
              (mkWorld Examples.missing_disk 600 600) Examples.loaded
              Examples.test_config eq_refl eq_refl)
    as (_ & _ & Hget).
  - cbn. lia.
  - rewrite Hget. reflexivity.
Defined.

End LoaderLifecycle.

(** * File-change bursts *)

Section FileWatchFacts.
Import FileWatch.
Local Open Scope Z_scope.

Lemma last_after_head (t t' : Z) (rest : list Z) :
  last (t' :: rest) t = last rest t'.
Proof.
  revert t t'. induction rest as [|u rest IH]; intros t t'; [reflexivity|].
  change (last (t' :: u :: rest) t) with (last (u :: rest) t).
  now rewrite !IH.
Qed.

Lemma watch_burst_armed (t : Z) (later : list Z) (horizon : Z) (d : Debouncer) :
  burst t later ->
  last later t + 1000 <= horizon ->
  watch later horizon (handleFileChange t d) = [last later t + 1000].
Proof.
  revert t d. induction later as [|t' rest IH]; intros t d Hburst Hquiet.
  - cbn in *. unfold run_timers; cbn.
    destruct (Z.leb_spec (t + 1000) horizon); [reflexivity | lia].
  - destruct Hburst as (Hgap & Hrest).
    cbn [watch]. unfold run_timers at 1; cbn [armed handleFileChange].
    destruct (Z.leb_spec (t + 1000) t'); [lia|].
    cbn [app]. rewrite last_after_head in *. now apply IH.
Qed.

(** X6: file changes that follow each other by less than 1000 ms, then
    1000 ms of quiet, make the debounced handler run exactly one reload, due
    1000 ms after the last change. *)
Theorem burst_reloads_once :
  forall (t : Z) (later : list Z) (horizon : Z),
    burst t later ->
    last later t + 1000 <= horizon ->
    watch (t :: later) horizon idle_debouncer = [last later t + 1000].
Proof.
  intros t later horizon Hburst Hquiet.
  cbn [watch]. unfold run_timers at 1; cbn [armed idle_debouncer app].
  now apply watch_burst_armed.
Qed.

Lemma burst_reloads_once_witness :
  watch [0; 300; 900; 1500] 5000 idle_debouncer = [2500].
Proof.
  apply (burst_reloads_once 0 [300; 900; 1500] 5000).
  - cbn. lia.
  - cbn. lia.
Defined.

End FileWatchFacts.

(** * The content service and its routes *)

Section ServiceFacts.
Import JsArray Api ContentRoutes.
Local Open Scope Z_scope.

(** X7: [ContentService.initialize] on a new service over a new loader
    succeeds exactly when the files are valid or fallback content was given;
    the service is initialized exactly in that case and then has content
    available; and on an initialized service [initialize] does nothing. *)
Theorem service_initialize_outcome :
  forall (timeout : Z) (fallback : option ContentConfig) (w w' : World),
    let r := fst (service_initialize w
                    (mkService (construct timeout fallback) false)) in
    let svc := snd (service_initialize w
                      (mkService (construct timeout fallback) false)) in
    (r = Ok tt <->
     (exists data, disk_content w = Ok data) \/ fallback <> None) /\
    (r = Ok tt <-> initialized svc = true) /\
    (initialized svc = true -> service_isContentAvailable svc = true) /\
    (initialized svc = true -> service_initialize w' svc = (Ok tt, svc)).
Proof.
  intros timeout fallback w w' r svc. subst r svc.
  unfold service_initialize; cbn [initialized configMapLoader].
  pose proof (fresh_initialize_result timeout fallback w) as Hinit.
  destruct (initialize w (construct timeout fallback)) as [[u|e] st];
    cbn [fst snd initialized] in *.
  - destruct u, Hinit as (Hwhy & Havail).
    split; [tauto|]. split; [tauto|]. split.
    + intros _. unfold service_isContentAvailable; cbn. exact Havail.
    + intros _. reflexivity.
  - destruct Hinit as (Hdisk & Hfb).
    split; [|split; [|split]]; try (split; discriminate); try discriminate.
    split; [discriminate|].
    intros [(data & Hd)|Hsome]; [now apply Hdisk in Hd | contradiction].
Qed.


(** X9: on an initialized service whose loader has nothing cached,
    [getSentences] always throws: the categories request that runs beside the
    sentences request finds the load in flight and no content.  This holds
    even when the files are valid, in which case the load started by the same
    call still caches their content; [getAcronyms], which makes a single
    request, succeeds from the same state. *)
Theorem getSentences_fails_on_empty_cache :
  forall (toLowerCase : string -> string) (w : World) (svc : ContentService)
         (category : option string) (l o : option Z),
    initialized svc = true ->
    cachedContent (configMapLoader svc) = None ->
    fst (service_getSentences toLowerCase w category l o svc) =
      Throw NoContentNoFallback /\
    (forall data,
       isLoading (configMapLoader svc) = false ->
       disk_content w = Ok data ->
       cachedContent (configMapLoader
                        (snd (service_getSentences toLowerCase w category
                                l o svc))) =
         Some (mkObj (next_ref (configMapLoader svc)) data) /\
       exists result,
         fst (service_getAcronyms w l o svc) = Ok result /\
         result_acronyms_total result = List.length (acronyms data)).
Proof.
  intros toLowerCase w svc category l o Hinit Hempty.
  assert (Hmiss : cache_hit w (configMapLoader svc) = None).
  { apply cache_hit_None. now left. }
  assert (Hmiss' : cache_hit w (set_isLoading true (configMapLoader svc)) = None).
  { apply cache_hit_None. now left. }
  assert (Hcats : fst (getCategories w (set_isLoading true (configMapLoader svc)))
                  = Throw NoContentNoFallback).
  { unfold getCategories, bind.
    rewrite (getContent_while_loading w
               (set_isLoading true (configMapLoader svc)) eq_refl Hmiss').
    cbn.
    rewrite Hempty. reflexivity. }
  unfold service_getSentences, getSentences_all. rewrite Hinit, Hmiss. cbn.
  rewrite Hcats.
  destruct (getSentences toLowerCase w category (configMapLoader svc))
    as [rs st'] eqn:Hs.
  split; [reflexivity|].
  intros data Hidle Hdisk. cbn. split.
  - unfold getSentences, bind, ret in Hs.
    rewrite (getContent_miss _ _ Hmiss) in Hs.
    rewrite (loadContent_success _ _ _ Hidle Hdisk) in Hs. cbn in Hs.
    injection Hs as _ <-. reflexivity.
  - unfold service_getAcronyms, getAcronyms, bind, ret. rewrite Hinit. cbn.
    rewrite (getContent_miss _ _ Hmiss).
    rewrite (loadContent_success _ _ _ Hidle Hdisk). cbn.
    eexists. split; reflexivity.
Qed.

(** After a failed forced reload the files are repaired: the next sentences
    request still fails, the one after it succeeds. *)
Lemma getSentences_fails_on_empty_cache_witness :
  let svc := mkService
               (snd (reloadContent (mkWorld Examples.broken_disk 10 10)
                       Examples.loaded)) true in
  fst (service_getSentences AsciiCase.toLowerCase
         (mkWorld Examples.good_disk 20 20) None None None svc) =
    Throw NoContentNoFallback.
Proof.
  cbv zeta.
  apply (getSentences_fails_on_empty_cache AsciiCase.toLowerCase
           (mkWorld Examples.good_disk 20 20)
           (mkService (snd (reloadContent (mkWorld Examples.broken_disk 10 10)
                              Examples.loaded)) true)
           None None None eq_refl eq_refl).
Defined.




Lemma firstn_two_windows {A : Type} (n m : nat) (l : list A) :
  firstn n l ++ firstn m (skipn n l) = firstn (n + m) l.
Proof.
  revert l. induction n as [|n IH]; intros l; cbn; [reflexivity|].
  destruct l as [|a l]; cbn.
  - now rewrite firstn_nil.
  - now rewrite IH.
Qed.

Lemma acronyms_page w svc c l o :
  initialized svc = true ->
  cache_hit w (configMapLoader svc) = Some c ->
  1 <= l <= 100 ->
  0 <= o ->
  get_acronyms_route w (mkQuery None (QValue l) (QValue o)) svc =
  (Answer (mkAcronymsResponse
             (firstn (Z.to_nat l) (skipn (Z.to_nat o) (acronyms (obj_val c))))
             (mkPagination (List.length (acronyms (obj_val c))) l o
                (o + l <? Z.of_nat (List.length (acronyms (obj_val c)))))),
   svc).
Proof.
  intros Hinit Hhit Hl Ho.
  unfold get_acronyms_route, AcronymsQuerySchema, z_number; cbn.
  destruct (Z.leb_spec 1 l); [|lia]. destruct (Z.leb_spec l 100); [|lia].
  destruct (Z.leb_spec 0 o); [|lia]. cbn.
  unfold service_getAcronyms, getAcronyms, bind, ret, getContent.
  rewrite Hinit, Hhit. cbn.
  rewrite slice_window by lia. destruct svc as [st i]; cbn in *.
  now subst i.
Qed.

(** X11: while the cached content is served, the page at [offset + limit]
    continues the page at [offset]: the two pages put together are the
    [2 * limit] acronyms that follow the first [offset] ones, and [hasMore]
    of a page holds exactly when the next page is not empty. *)
Theorem consecutive_pages :
  forall (w : World) (svc : ContentService) (c : ContentObj) (l o : Z),
    initialized svc = true ->
    cache_hit w (configMapLoader svc) = Some c ->
    1 <= l <= 100 ->
    0 <= o ->
    exists b1 b2,
      get_acronyms_route w (mkQuery None (QValue l) (QValue o)) svc =
        (Answer b1, svc) /\
      get_acronyms_route w (mkQuery None (QValue l) (QValue (o + l))) svc =
        (Answer b2, svc) /\
      acronyms_data b1 ++ acronyms_data b2 =
        firstn (Z.to_nat (2 * l))
               (skipn (Z.to_nat o) (acronyms (obj_val c))) /\
      (hasMore (acronyms_pagination b1) = true <-> acronyms_data b2 <> []).
Proof.
  intros w svc c l o Hinit Hhit Hl Ho.
  eexists. eexists.
  split; [exact (acronyms_page w svc c l o Hinit Hhit Hl Ho)|].
  split; [exact (acronyms_page w svc c l (o + l) Hinit Hhit Hl ltac:(lia))|].
  cbn [acronyms_data acronyms_pagination hasMore].
  set (all := acronyms (obj_val c)). split.
  - replace (Z.to_nat (o + l)) with (Z.to_nat l + Z.to_nat o)%nat by lia.
    rewrite <- skipn_skipn, firstn_two_windows. f_equal. lia.
  - rewrite Z.ltb_lt. split.
    + intros Hmore Hnil.
      assert (Hlen : List.length (firstn (Z.to_nat l)
                                    (skipn (Z.to_nat (o + l)) all)) = 0%nat)
        by now rewrite Hnil.
      rewrite length_firstn, length_skipn in Hlen. lia.
    + intros Hne. destruct (Z.ltb_spec (o + l) (Z.of_nat (List.length all)));
        [assumption|].
      exfalso. apply Hne. rewrite skipn_all2 by lia. apply firstn_nil.
Qed.

Lemma consecutive_pages_witness :
  exists b1 b2,
    get_acronyms_route (mkWorld Examples.good_disk 1 1)
      (mkQuery None (QValue 1) (QValue 0))
      (mkService Examples.loaded true) =
      (Answer b1, mkService Examples.loaded true) /\
    get_acronyms_route (mkWorld Examples.good_disk 1 1)
      (mkQuery None (QValue 1) (QValue 1))
      (mkService Examples.loaded true) =
      (Answer b2, mkService Examples.loaded true) /\
    acronyms_data b1 ++ acronyms_data b2 = acronyms Examples.test_config.
Proof.
  destruct (consecutive_pages (mkWorld Examples.good_disk 1 1)
              (mkService Examples.loaded true)
              (mkObj 1 Examples.test_config) 1 0 eq_refl eq_refl)
    as (b1 & b2 & H1 & H2 & Hcat & _); try lia.
  exists b1, b2. split; [exact H1|]. split; [exact H2|]. exact Hcat.
Defined.

(** X23: [POST /api/content/reload] on an initialized service with no load
    in flight answers 200 when the files are valid and also when they are
    not but fallback content is configured; it answers 500, and leaves the
    service without content, when the load fails and there is no fallback. *)
Theorem post_reload_status :
  forall (w : World) (svc : ContentService),
    initialized svc = true ->
    isLoading (configMapLoader svc) = false ->
    let answer := fst (post_reload_route w svc) in
    let svc' := snd (post_reload_route w svc) in
    match disk_content w, fallbackContent (configMapLoader svc) with
    | Ok data, _ =>
        status_of answer = 200 /\
        cachedContent (configMapLoader svc') =
          Some (mkObj (next_ref (configMapLoader svc)) data)
    | Throw _, Some fb =>
        status_of answer = 200 /\ cachedContent (configMapLoader svc') = Some fb
    | Throw _, None =>
        status_of answer = 500 /\ service_isContentAvailable svc' = false
    end.
Proof.
  intros w svc Hinit Hidle answer svc'. subst answer svc'.
  unfold post_reload_route, service_reloadContent, service_isContentAvailable,
    reloadContent, bind, modify.
  rewrite Hinit. cbn [negb].
  destruct (disk_content w) as [data|e] eqn:Hdisk.
  - rewrite (loadContent_success w
               (set_cachedContent None (configMapLoader svc)) data Hidle Hdisk).
    cbn. auto.
  - rewrite (loadContent_failure w
               (set_cachedContent None (configMapLoader svc)) e Hidle Hdisk).
    cbn. destruct (fallbackContent (configMapLoader svc)); cbn; auto.
Qed.

Lemma post_reload_status_witness :
  status_of (fst (post_reload_route (mkWorld Examples.broken_disk 10 10)
                    (mkService Examples.loaded true))) = 500 /\
  status_of (fst (post_reload_route (mkWorld Examples.broken_disk 10 10)
                    (mkService Examples.loaded_with_fallback true))) = 200.
Proof.
  split.
  - apply (post_reload_status (mkWorld Examples.broken_disk 10 10)
             (mkService Examples.loaded true) eq_refl eq_refl).
  - apply (post_reload_status (mkWorld Examples.broken_disk 10 10)
             (mkService Examples.loaded_with_fallback true) eq_refl eq_refl).
Defined.




End ServiceFacts.

(** * The response cache *)

Section JsMapFacts.
Import Caching.

Variable V : Type.
Implicit Types (m : JsMap V) (k : string) (v : V).

Lemma map_get_set_same k v m : map_get k (map_set k v m) = Some v.
Proof.
  induction m as [|[k' v'] m IH]; cbn.
  - now rewrite String.eqb_refl.
  - destruct (String.eqb_spec k k'); cbn.
    + now rewrite String.eqb_refl.
    + destruct (String.eqb_spec k k'); [contradiction | exact IH].
Qed.

Lemma map_get_set_other k k' v m :
  k <> k' -> map_get k' (map_set k v m) = map_get k' m.
Proof.
  intros Hne. induction m as [|[k0 v0] m IH]; cbn.
  - destruct (String.eqb_spec k' k); [congruence | reflexivity].
  - destruct (String.eqb_spec k k0) as [->|Hk]; cbn.
    + destruct (String.eqb_spec k' k0); [congruence | reflexivity].
    + destruct (String.eqb_spec k' k0); [reflexivity | exact IH].
Qed.

Lemma map_has_In k m : map_has k m = true <-> In k (map_keys m).
Proof.
  unfold map_has. induction m as [|[k' v'] m IH]; cbn.
  - split; [discriminate | tauto].
  - destruct (String.eqb_spec k k') as [->|Hne].
    + split; auto.
    + rewrite IH. split; [auto | intros [Heq|Hin]; [congruence | exact Hin]].
Qed.

Lemma map_has_false k m : map_has k m = false <-> ~ In k (map_keys m).
Proof.
  rewrite <- map_has_In. destruct (map_has k m); split; congruence.
Qed.

Lemma map_has_set k k' v m :
  map_has k' (map_set k v m) = String.eqb k k' || map_has k' m.
Proof.
  unfold map_has. destruct (String.eqb_spec k k') as [<-|Hne]; cbn.
  - now rewrite map_get_set_same.
  - now rewrite map_get_set_other.
Qed.

Lemma map_keys_set k v m :
  map_keys (map_set k v m) =
  if map_has k m then map_keys m else map_keys m ++ [k].
Proof.
  unfold map_has, map_keys.
  induction m as [|[k' v'] m IH]; cbn; [reflexivity|].
  destruct (String.eqb_spec k k') as [->|Hne]; cbn; [reflexivity|].
  rewrite IH. destruct (map_get k m); reflexivity.
Qed.

Lemma map_set_NoDup k v m :
  NoDup (map_keys m) -> NoDup (map_keys (map_set k v m)).
Proof.
  intros Hnd. rewrite map_keys_set.
  destruct (map_has k m) eqn:Hhas; [assumption|].
  apply map_has_false in Hhas.
  apply (Permutation_NoDup (Permutation_cons_append _ k)).
  now constructor.
Qed.

Lemma map_set_length k v m :
  List.length (map_set k v m) =
  if map_has k m then List.length m else S (List.length m).
Proof.
  pose proof (f_equal (@List.length _) (map_keys_set k v m)) as H.
  unfold map_keys in H. rewrite length_map in H. rewrite H.
  destruct (map_has k m); [apply length_map|].
  rewrite length_app, length_map. cbn. lia.
Qed.

Lemma map_set_In k k' v a m :
  In (k', a) (map_set k v m) -> (k' = k /\ a = v) \/ In (k', a) m.
Proof.
  induction m as [|[k0 v0] m IH]; cbn.
  - intros [[= <- <-]|[]]. auto.
  - destruct (String.eqb_spec k k0) as [->|Hne]; cbn.
    + intros [[= <- <-]|Hin]; auto.
    + intros [Heq|Hin]; [auto|]. destruct (IH Hin); auto.
Qed.

Lemma map_get_delete_other k k' m :
  k <> k' -> map_get k' (map_delete k m) = map_get k' m.
Proof.
  intros Hne. induction m as [|[k0 v0] m IH]; cbn; [reflexivity|].
  destruct (String.eqb_spec k k0) as [->|Hk]; cbn.
  - destruct (String.eqb_spec k' k0); [congruence | reflexivity].
  - destruct (String.eqb_spec k' k0); [reflexivity | exact IH].
Qed.

Lemma map_delete_In k kv m : In kv (map_delete k m) -> In kv m.
Proof.
  induction m as [|[k0 v0] m IH]; cbn; [tauto|].
  destruct (String.eqb_spec k k0); cbn; [auto|].
  intros [Heq|Hin]; auto.
Qed.

Lemma map_delete_keys_In k k' m :
  In k' (map_keys (map_delete k m)) -> In k' (map_keys m).
Proof.
  unfold map_keys. rewrite !in_map_iff.
  intros (kv & Hk & Hin). exists kv. split; [assumption|].
  eapply map_delete_In, Hin.
Qed.

Lemma map_delete_NoDup k m :
  NoDup (map_keys m) -> NoDup (map_keys (map_delete k m)).
Proof.
  induction m as [|[k0 v0] m IH]; cbn; intros Hnd; [constructor|].
  inversion Hnd as [|? ? Hnotin Hrest]; subst.
  destruct (String.eqb_spec k k0); cbn; [assumption|].
  constructor; [|auto].
  intros Hin. apply Hnotin. eapply map_delete_keys_In, Hin.
Qed.

Lemma map_get_delete_same k m :
  NoDup (map_keys m) -> map_get k (map_delete k m) = None.
Proof.
  induction m as [|[k0 v0] m IH]; cbn; intros Hnd; [reflexivity|].
  inversion Hnd as [|? ? Hnotin Hrest]; subst.
  destruct (String.eqb_spec k k0) as [->|Hne]; cbn.
  - apply map_has_false in Hnotin. unfold map_has in Hnotin.
    destruct (map_get k0 m); [discriminate | reflexivity].
  - destruct (String.eqb_spec k k0); [contradiction | auto].
Qed.

Lemma map_has_delete k k' m :
  NoDup (map_keys m) ->
  map_has k' (map_delete k m) =
  if String.eqb k k' then false else map_has k' m.
Proof.
  intros Hnd. unfold map_has.
  destruct (String.eqb_spec k k') as [<-|Hne].
  - now rewrite map_get_delete_same.
  - now rewrite map_get_delete_other.
Qed.

Lemma map_delete_length k m :
  map_has k m = true -> S (List.length (map_delete k m)) = List.length m.
Proof.
  unfold map_has. induction m as [|[k0 v0] m IH]; cbn; [discriminate|].
  destruct (String.eqb_spec k k0); cbn; [reflexivity|].
  intros Hhas. now rewrite IH.
Qed.

Lemma map_get_In k v m : map_get k m = Some v -> In (k, v) m.
Proof.
  induction m as [|[k0 v0] m IH]; cbn; [discriminate|].
  destruct (String.eqb_spec k k0) as [->|Hne].
  - intros [= ->]. now left.
  - auto.
Qed.

Lemma In_map_get k v m : NoDup (map_keys m) -> In (k, v) m -> map_get k m = Some v.
Proof.
  induction m as [|[k0 v0] m IH]; cbn; intros Hnd Hin; [contradiction|].
  inversion Hnd as [|? ? Hnotin Hrest]; subst.
  destruct Hin as [[= -> ->]|Hin].
  - now rewrite String.eqb_refl.
  - destruct (String.eqb_spec k k0) as [->|Hne]; [|auto].
    exfalso. apply Hnotin. unfold map_keys.
    change k0 with (fst (k0, v)). now apply in_map.
Qed.

Lemma map_nonempty_has m : m <> [] -> exists k, map_has k m = true.
Proof.
  destruct m as [|[k0 v0] rest]; [contradiction|]. intros _.
  exists k0. unfold map_has; cbn. now rewrite String.eqb_refl.
Qed.

Lemma map_delete_absent k m : map_has k m = false -> map_delete k m = m.
Proof.
  unfold map_has. induction m as [|[k0 v0] m IH]; cbn; [reflexivity|].
  destruct (String.eqb k k0); [discriminate|].
  intros Hhas. now rewrite IH.
Qed.

End JsMapFacts.

Section MemoryCacheFacts.
Import Caching.

Variable Entry : Type.
Implicit Types (c : MemoryCache Entry) (k : string) (e : Entry).

Lemma stamps_after_set k (a : nat) (m : JsMap nat) x :
  In x (map snd (map_set k a m)) -> x = a \/ In x (map snd m).
Proof.
  rewrite !in_map_iff. intros ([k' a'] & <- & Hin).
  apply map_set_In in Hin as [(_ & ->)|Hin]; [now left|].
  right. exists (k', a'). auto.
Qed.

Lemma stamps_distinct_after_set k (a : nat) (m : JsMap nat) :
  NoDup (map snd m) -> ~ In a (map snd m) ->
  NoDup (map snd (map_set k a m)).
Proof.
  induction m as [|[k0 a0] m IH]; cbn; intros Hnd Hnew.
  - repeat constructor. tauto.
  - inversion Hnd as [|? ? Hnotin Hrest]; subst.
    destruct (String.eqb_spec k k0); cbn.
    + constructor; tauto.
    + constructor; [|apply IH; tauto].
      intros Hin. apply stamps_after_set in Hin as [->|Hin]; tauto.
Qed.

Lemma stamps_distinct_after_delete k (m : JsMap nat) :
  NoDup (map snd m) -> NoDup (map snd (map_delete k m)).
Proof.
  induction m as [|[k0 a0] m IH]; cbn; intros Hnd; [constructor|].
  inversion Hnd as [|? ? Hnotin Hrest]; subst.
  destruct (String.eqb_spec k k0); cbn; [assumption|].
  constructor; [|auto].
  rewrite in_map_iff. intros ([k' a'] & Heq & Hin). cbn in Heq. subst a'.
  apply Hnotin. apply map_delete_In in Hin.
  change a0 with (snd (k', a0)). now apply in_map.
Qed.

Lemma oldest_step_cases (acc : option (string * nat)) (kv : string * nat) :
  exists x,
    oldest_step acc kv = Some x /\
    (x = kv \/ acc = Some x) /\
    (snd x <= snd kv)%nat /\
    (forall y, acc = Some y -> (snd x <= snd y)%nat).
Proof.
  unfold oldest_step. destruct acc as [[k0 a0]|].
  - destruct (Nat.ltb_spec (snd kv) a0).
    + exists kv. repeat split; auto. intros y [= <-]. cbn. lia.
    + exists (k0, a0). repeat split; auto. intros y [= <-]. cbn. lia.
  - exists kv. repeat split; auto. discriminate.
Qed.

(** The loop of [evictLRU] returns an entry of the map whose stamp is the
    smallest. *)
Lemma oldest_from (m : JsMap nat) (acc : option (string * nat)) x :
  fold_left oldest_step m acc = Some x ->
  (acc = Some x \/ In x m) /\
  (forall y, In y m -> (snd x <= snd y)%nat) /\
  (forall y, acc = Some y -> (snd x <= snd y)%nat).
Proof.
  revert acc. induction m as [|kv m IH]; intros acc; cbn.
  - intros ->. split; [auto|]. split; [tauto|]. intros y [= <-]. lia.
  - intros Hfold. apply IH in Hfold as (Hsrc & Hmin & Hacc).
    destruct (oldest_step_cases acc kv) as (z & Hz & Hfrom & Hzkv & Hzacc).
    pose proof (Hacc z Hz) as Hxz.
    split; [|split].
    + destruct Hsrc as [Heq|Hin]; [|auto].
      rewrite Hz in Heq. injection Heq as ->.
      destruct Hfrom as [->|Hfrom]; auto.
    + intros y [<-|Hin]; [lia | auto].
    + intros y Hy. specialize (Hzacc y Hy). lia.
Qed.

Lemma oldest_from_None (m : JsMap nat) (acc : option (string * nat)) :
  fold_left oldest_step m acc = None -> acc = None /\ m = [].
Proof.
  revert acc. induction m as [|kv m IH]; intros acc; cbn; [auto|].
  intros Hfold. apply IH in Hfold as (Habs & _).
  destruct (oldest_step_cases acc kv) as (z & Hz & _). congruence.
Qed.

Lemma oldest_spec (m : JsMap nat) :
  m <> [] ->
  exists k a,
    oldest m = Some (k, a) /\ In (k, a) m /\
    forall k' a', In (k', a') m -> (a <= a')%nat.
Proof.
  intros Hne. unfold oldest.
  destruct (fold_left oldest_step m None) as [[k a]|] eqn:Hfold.
  - apply oldest_from in Hfold as ([Habs|Hin] & Hmin & _); [discriminate|].
    exists k, a. repeat split; [assumption|].
    intros k' a' Hin'. apply (Hmin (k', a') Hin').
  - apply oldest_from_None in Hfold as (_ & Hnil). contradiction.
Qed.

Lemma new_cache_wf size : cache_wf (@new_cache Entry size).
Proof.
  unfold cache_wf; cbn. repeat split; try constructor; tauto.
Qed.

Lemma cache_clear_wf c : cache_wf (cache_clear c).
Proof.
  unfold cache_wf; cbn. repeat split; try constructor; tauto.
Qed.

(** Stamping the key [k] with the next access number keeps the cache well
    formed, provided the entries then hold [k] besides the keys they held. *)
Lemma stamp_wf c k (entries : JsMap Entry) :
  cache_wf c ->
  NoDup (map_keys entries) ->
  (forall k', map_has k' entries = String.eqb k k' || map_has k' (cache c)) ->
  cache_wf (mkCache entries (maxSize c)
              (map_set k (S (accessCounter c)) (accessOrder c))
              (S (accessCounter c))).
Proof.
  intros (Hkeys & Hstampkeys & Hsame & Hdistinct & Hbound) Hnd Hhas.
  unfold cache_wf; cbn.
  split; [assumption|]. split; [now apply map_set_NoDup|].
  split; [intros k'; now rewrite Hhas, map_has_set, Hsame|].
  split.
  - apply stamps_distinct_after_set; [assumption|].
    rewrite in_map_iff. intros ([k' a'] & Heq & Hin). cbn in Heq. subst a'.
    apply Hbound in Hin. lia.
  - intros k' a Hin. apply map_set_In in Hin as [(_ & ->)|Hin]; [lia|].
    apply Hbound in Hin. lia.
Qed.

Lemma cache_get_wf c k : cache_wf c -> cache_wf (snd (cache_get k c)).
Proof.
  intros Hwf. unfold cache_get.
  destruct (map_get k (cache c)) as [e|] eqn:Hget; cbn; [|assumption].
  apply stamp_wf; [assumption | apply Hwf|].
  intros k'. destruct (String.eqb_spec k k') as [<-|Hne]; cbn; [|reflexivity].
  unfold map_has. now rewrite Hget.
Qed.

Lemma cache_delete_wf c k : cache_wf c -> cache_wf (snd (cache_delete k c)).
Proof.
  intros (Hkeys & Hstampkeys & Hsame & Hdistinct & Hbound).
  unfold cache_wf; cbn.
  split; [now apply map_delete_NoDup|].
  split; [now apply map_delete_NoDup|].
  split; [intros k'; now rewrite !map_has_delete, Hsame|].
  split; [now apply stamps_distinct_after_delete|].
  intros k' a Hin. apply map_delete_In in Hin. eauto.
Qed.

Lemma evictLRU_wf c : cache_wf c -> cache_wf (evictLRU c).
Proof.
  intros Hwf. unfold evictLRU.
  destruct (oldest (accessOrder c)) as [[k a]|]; [|assumption].
  destruct (String.eqb k ""); [assumption | now apply cache_delete_wf].
Qed.

Lemma evictLRU_fields c :
  maxSize (evictLRU c) = maxSize c /\
  accessCounter (evictLRU c) = accessCounter c.
Proof.
  unfold evictLRU. destruct (oldest (accessOrder c)) as [[k a]|]; [|auto].
  destruct (String.eqb k ""); cbn; auto.
Qed.

Lemma cache_set_wf c k e : cache_wf c -> cache_wf (cache_set k e c).
Proof.
  intros Hwf. unfold cache_set.
  set (c1 := if (maxSize c <=? Z.of_nat (List.length (cache c)))%Z
                 && negb (map_has k (cache c))
              then evictLRU c else c).
  assert (Hwf1 : cache_wf c1).
  { subst c1.
    destruct ((maxSize c <=? Z.of_nat (List.length (cache c)))%Z
              && negb (map_has k (cache c)));
      [now apply evictLRU_wf | assumption]. }
  apply stamp_wf; [assumption | apply map_set_NoDup, Hwf1|].
  intros k'. apply map_has_set.
Qed.

Lemma cache_exec_wf c (op : CacheOp Entry) :
  cache_wf c -> cache_wf (cache_exec op c).
Proof.
  intros Hwf. destruct op; cbn.
  - now apply cache_get_wf.
  - now apply cache_set_wf.
  - now apply cache_delete_wf.
  - apply cache_clear_wf.
Qed.

Lemma cache_set_entries c k e :
  cache (cache_set k e c) =
  map_set k e
    (cache (if (maxSize c <=? Z.of_nat (List.length (cache c)))%Z
               && negb (map_has k (cache c))
            then evictLRU c else c)).
Proof. reflexivity. Qed.

(** X13: an entry stored under a key is what [get] returns for it next, and
    unless the cache is full and the key new, the entries under all other
    keys stay as they were. *)
Theorem cache_set_then_get :
  forall c k e,
    fst (cache_get k (cache_set k e c)) = Some e /\
    ((Z.of_nat (cache_size c) < maxSize c)%Z \/ map_has k (cache c) = true ->
     cache_size (cache_set k e c) =
       (if map_has k (cache c) then cache_size c else S (cache_size c)) /\
     forall k', k' <> k ->
       map_get k' (cache (cache_set k e c)) = map_get k' (cache c)).
Proof.
  intros c k e. split.
  - unfold cache_get. rewrite cache_set_entries, map_get_set_same. reflexivity.
  - intros Hroom. unfold cache_size. rewrite cache_set_entries.
    assert (Hno : (maxSize c <=? Z.of_nat (List.length (cache c)))%Z
                  && negb (map_has k (cache c)) = false).
    { destruct Hroom as [Hlt| ->].
      - unfold cache_size in Hlt.
        destruct (Z.leb_spec (maxSize c) (Z.of_nat (List.length (cache c))));
          [lia | reflexivity].
      - apply andb_false_r. }
    rewrite Hno. split; [apply map_set_length|].
    intros k' Hne. apply map_get_set_other. congruence.
Qed.

Lemma evictLRU_victim c :
  cache_wf c ->
  cache c <> [] ->
  (forall k, map_has k (cache c) = true -> k <> "") ->
  exists victim stamp,
    In (victim, stamp) (accessOrder c) /\
    (forall k' a', In (k', a') (accessOrder c) -> (stamp <= a')%nat) /\
    map_has victim (cache c) = true /\
    evictLRU c = snd (cache_delete victim c).
Proof.
  intros (Hkeys & Hstampkeys & Hsame & Hdistinct & Hbound) Hne Hnonempty.
  assert (Hao : accessOrder c <> []).
  { destruct (map_nonempty_has _ _ Hne) as (k0 & Hhas).
    rewrite Hsame in Hhas. intros Hnil. rewrite Hnil in Hhas. discriminate. }
  destruct (oldest_spec _ Hao) as (victim & stamp & Hold & Hin & Hmin).
  assert (Hcached : map_has victim (cache c) = true).
  { rewrite Hsame. apply map_has_In. unfold map_keys.
    change victim with (fst (victim, stamp)). now apply in_map. }
  exists victim, stamp. repeat split; try assumption.
  unfold evictLRU. rewrite Hold.
  destruct (String.eqb_spec victim "") as [Hempty|_]; [|reflexivity].
  exfalso. now apply (Hnonempty victim).
Qed.

(** X14: when the cache is full and the key is new, [set] makes room by
    dropping exactly one entry, the one whose last access ([get] or [set]) is
    the oldest; every other entry stays, the new one is stored and the size
    does not change. *)
Theorem cache_set_evicts_oldest :
  forall c k e,
    cache_wf c ->
    (forall k', map_has k' (cache c) = true -> k' <> "") ->
    cache c <> [] ->
    (maxSize c <= Z.of_nat (cache_size c))%Z ->
    map_has k (cache c) = false ->
    exists victim stamp,
      In (victim, stamp) (accessOrder c) /\
      (forall k' a', In (k', a') (accessOrder c) -> (stamp <= a')%nat) /\
      map_has victim (cache c) = true /\
      map_get victim (cache (cache_set k e c)) = None /\
      map_get k (cache (cache_set k e c)) = Some e /\
      (forall k', k' <> victim -> k' <> k ->
         map_get k' (cache (cache_set k e c)) = map_get k' (cache c)) /\
      cache_size (cache_set k e c) = cache_size c.
Proof.
  intros c k e Hwf Hnonempty Hne Hfull Hnew.
  destruct (evictLRU_victim c Hwf Hne Hnonempty)
    as (victim & stamp & Hin & Hmin & Hcached & Hevict).
  pose proof Hwf as (Hkeys & _).
  assert (Hvk : victim <> k) by (intros ->; congruence).
  exists victim, stamp.
  split; [assumption|]. split; [assumption|]. split; [assumption|].
  unfold cache_size in *. rewrite cache_set_entries.
  assert (Hyes : (maxSize c <=? Z.of_nat (List.length (cache c)))%Z
                 && negb (map_has k (cache c)) = true).
  { rewrite Hnew. cbn. rewrite andb_true_r. now apply Z.leb_le. }
  rewrite Hyes, Hevict. cbn [cache_delete snd cache].
  split.
  { rewrite map_get_set_other by congruence.
    now apply map_get_delete_same. }
  split; [apply map_get_set_same|]. split.
  { intros k' Hk'v Hk'k.
    rewrite map_get_set_other by congruence.
    apply map_get_delete_other. congruence. }
  rewrite map_set_length.
  assert (Hstill : map_has k (map_delete victim (cache c)) = false).
  { rewrite map_has_delete by assumption.
    destruct (String.eqb victim k); [reflexivity | assumption]. }
  rewrite Hstill. now apply map_delete_length.
Qed.

Lemma cache_set_maxSize c k e : maxSize (cache_set k e c) = maxSize c.
Proof.
  unfold cache_set; cbn.
  destruct ((maxSize c <=? Z.of_nat (List.length (cache c)))%Z
            && negb (map_has k (cache c))); [|reflexivity].
  apply evictLRU_fields.
Qed.

Lemma evictLRU_has c k :
  cache_wf c ->
  map_has k (cache (evictLRU c)) = true -> map_has k (cache c) = true.
Proof.
  intros (Hkeys & _). unfold evictLRU.
  destruct (oldest (accessOrder c)) as [[k0 a0]|]; [|auto].
  destruct (String.eqb k0 ""); [auto|]. cbn.
  rewrite map_has_delete by assumption.
  destruct (String.eqb k0 k); [discriminate | auto].
Qed.

Lemma cache_set_has c k e k' :
  cache_wf c ->
  map_has k' (cache (cache_set k e c)) = true ->
  k' = k \/ map_has k' (cache c) = true.
Proof.
  intros Hwf. rewrite cache_set_entries, map_has_set.
  destruct (String.eqb_spec k k') as [->|Hne]; [auto|]. cbn.
  destruct ((maxSize c <=? Z.of_nat (List.length (cache c)))%Z
            && negb (map_has k (cache c))); [|auto].
  intros Hhas. right. now apply evictLRU_has.
Qed.

Lemma cache_set_size_le c k e :
  cache_wf c ->
  (forall k', map_has k' (cache c) = true -> k' <> "") ->
  (1 <= maxSize c)%Z ->
  (Z.of_nat (cache_size c) <= maxSize c)%Z ->
  (Z.of_nat (cache_size (cache_set k e c)) <= maxSize c)%Z.
Proof.
  intros Hwf Hnonempty Hsize Hlen. unfold cache_size in *.
  rewrite cache_set_entries, map_set_length.
  destruct (map_has k (cache c)) eqn:Hhas.
  - rewrite andb_false_r, Hhas. exact Hlen.
  - rewrite andb_true_r.
    destruct (Z.leb_spec (maxSize c) (Z.of_nat (List.length (cache c))))
      as [Hfull|Hroom].
    + assert (Hne : cache c <> []).
      { intros Hnil. rewrite Hnil in Hfull. cbn in Hfull. lia. }
      destruct (evictLRU_victim c Hwf Hne Hnonempty)
        as (victim & stamp & _ & _ & Hcached & ->).
      cbn [cache_delete snd cache].
      pose proof Hwf as (Hkeys & _).
      assert (Hstill : map_has k (map_delete victim (cache c)) = false).
      { rewrite map_has_delete by assumption.
        destruct (String.eqb victim k); [reflexivity | assumption]. }
      rewrite Hstill.
      pose proof (map_delete_length _ victim (cache c) Hcached). lia.
    + rewrite Hhas. lia.
Qed.

Lemma cache_exec_size size c (op : CacheOp Entry) :
  (1 <= size)%Z ->
  (forall k, op_key op = Some k -> k <> "") ->
  cache_wf c /\ maxSize c = size /\
  (Z.of_nat (cache_size c) <= size)%Z /\
  (forall k, map_has k (cache c) = true -> k <> "") ->
  cache_wf (cache_exec op c) /\ maxSize (cache_exec op c) = size /\
  (Z.of_nat (cache_size (cache_exec op c)) <= size)%Z /\
  (forall k, map_has k (cache (cache_exec op c)) = true -> k <> "").
Proof.
  intros Hsize Hkey (Hwf & Hmax & Hlen & Hnonempty).
  split; [now apply cache_exec_wf|].
  destruct op as [k|k e|k|]; cbn [cache_exec].
  - unfold cache_get. destruct (map_get k (cache c)); cbn; auto.
  - assert (Hk : k <> "") by (apply Hkey; reflexivity).
    split; [now rewrite cache_set_maxSize|]. split.
    + rewrite <- Hmax. apply cache_set_size_le; try assumption; lia.
    + intros k' Hk'. apply cache_set_has in Hk' as [->|Hold]; auto.
  - split; [exact Hmax|]. unfold cache_size; cbn. split.
    + destruct (map_has k (cache c)) eqn:Hhas.
      * pose proof (map_delete_length _ k (cache c) Hhas).
        unfold cache_size in Hlen. lia.
      * rewrite (map_delete_absent _ k (cache c) Hhas). exact Hlen.
    + intros k' Hk'. apply Hnonempty.
      destruct Hwf as (Hkeys & _).
      rewrite map_has_delete in Hk' by assumption.
      destruct (String.eqb k k'); [discriminate | assumption].
  - cbn. split; [exact Hmax|]. split; [lia | discriminate].
Qed.

Lemma another_key c k :
  cache_wf c ->
  (2 <= cache_size c)%nat ->
  exists k2, k2 <> k /\ map_has k2 (cache c) = true.
Proof.
  intros (Hkeys & _) Hsize. unfold cache_size in Hsize.
  assert (Hlen : (2 <= List.length (map_keys (cache c)))%nat).
  { unfold map_keys. now rewrite length_map. }
  assert (Hin : forall x, In x (map_keys (cache c)) ->
                          map_has x (cache c) = true).
  { intros x. apply map_has_In. }
  destruct (map_keys (cache c)) as [|x [|y rest]]; cbn in Hlen; try lia.
  inversion Hkeys as [|? ? Hnotin _]; subst.
  destruct (String.eqb_spec x k) as [->|Hne].
  - exists y. split; [|apply Hin; cbn; auto].
    intros ->. apply Hnotin. now left.
  - exists x. split; [assumption | apply Hin; cbn; auto].
Qed.

(** X15: an entry that has just been read is not the one dropped by the next
    [set]: with at least two entries cached, reading a key and then storing
    another key leaves the entry that was read in the cache. *)
Theorem recently_read_survives :
  forall c k k' e e',
    cache_wf c ->
    (2 <= cache_size c)%nat ->
    map_get k (cache c) = Some e ->
    k' <> k ->
    map_get k (cache (cache_set k' e' (snd (cache_get k c)))) = Some e.
Proof.
  intros c k k' e e' Hwf Hsize Hget Hne.
  pose proof (cache_get_wf c k Hwf) as Hwf1.
  unfold cache_get in *. rewrite Hget in *. cbn [snd] in *.
  set (c1 := mkCache (cache c) (maxSize c)
               (map_set k (S (accessCounter c)) (accessOrder c))
               (S (accessCounter c))) in *.
  rewrite cache_set_entries, map_get_set_other by assumption.
  destruct ((maxSize c1 <=? Z.of_nat (List.length (cache c1)))%Z
            && negb (map_has k' (cache c1))); [|exact Hget].
  unfold evictLRU.
  destruct (oldest (accessOrder c1)) as [[victim stamp]|] eqn:Hold;
    [|exact Hget].
  destruct (String.eqb victim ""); [exact Hget|]. cbn.
  destruct (String.eqb_spec victim k) as [->|Hvk];
    [|rewrite map_get_delete_other by assumption; exact Hget].
  exfalso.
  apply oldest_from in Hold as ([Habs|Hin] & Hmin & _); [discriminate|].
  destruct (another_key c k Hwf Hsize) as (k2 & Hk2 & Hhas2).
  destruct Hwf1 as (_ & Hstampkeys & _).
  destruct Hwf as (_ & _ & Hsame & _ & Hbound).
  assert (Hstamp : stamp = S (accessCounter c)).
  { apply (In_map_get _ _ _ _ Hstampkeys) in Hin.
    subst c1; cbn in Hin. rewrite map_get_set_same in Hin. congruence. }
  rewrite Hsame in Hhas2. unfold map_has in Hhas2.
  destruct (map_get k2 (accessOrder c)) as [a2|] eqn:Hget2; [|discriminate].
  assert (Hin2 : In (k2, a2) (accessOrder c1)).
  { apply map_get_In. subst c1; cbn.
    rewrite map_get_set_other by congruence. exact Hget2. }
  specialize (Hmin (k2, a2) Hin2). cbn in Hmin.
  apply map_get_In, Hbound in Hget2. lia.
Qed.

(** X16: the empty key is never evicted: when the oldest stamp belongs to
    the empty string, storing a new key in a full cache drops nothing and the
    cache grows. *)
Theorem empty_key_blocks_eviction :
  forall c k e stamp,
    oldest (accessOrder c) = Some ("", stamp) ->
    map_has k (cache c) = false ->
    cache_size (cache_set k e c) = S (cache_size c).
Proof.
  intros c k e stamp Hold Hnew. unfold cache_size.
  rewrite cache_set_entries.
  assert (Hsame : (if (maxSize c <=? Z.of_nat (List.length (cache c)))%Z
                      && negb (map_has k (cache c))
                   then evictLRU c else c) = c).
  { destruct (_ && _); [|reflexivity]. unfold evictLRU. now rewrite Hold. }
  rewrite Hsame, map_set_length, Hnew. reflexivity.
Qed.

(** X12: a cache of capacity at least one that is only ever used with
    non-empty keys never holds more entries than its capacity. *)
Theorem cache_size_bounded :
  forall (size : Z) (ops : list (CacheOp Entry)),
    (1 <= size)%Z ->
    (forall op k, In op ops -> op_key op = Some k -> k <> "") ->
    (Z.of_nat (cache_size (cache_run ops (new_cache size))) <= size)%Z.
Proof.
  intros size ops Hsize Hkeys.
  assert (Hinv : forall c,
             cache_wf c /\ maxSize c = size /\
             (Z.of_nat (cache_size c) <= size)%Z /\
             (forall k, map_has k (cache c) = true -> k <> "") ->
             (Z.of_nat (cache_size (cache_run ops c)) <= size)%Z).
  { induction ops as [|op ops IH]; intros c Hc.
    - apply Hc.
    - unfold cache_run; cbn [fold_left]. apply IH.
      + intros op' k Hin. apply Hkeys. now right.
      + apply cache_exec_size; try assumption.
        intros k. apply Hkeys. now left. }
  apply Hinv. split; [apply new_cache_wf|].
  split; [reflexivity|]. split; [cbn; lia | discriminate].
Qed.

End MemoryCacheFacts.

Section MemoryCacheExamples.
Import Caching.

Lemma cache_size_bounded_witness :
  (Z.of_nat (cache_size
     (cache_run [OpSet "a" 1%nat; OpSet "b" 2%nat; OpGet "a";
                 OpSet "c" 3%nat; OpDelete "z"; OpSet "d" 4%nat]
        (new_cache 2))) <= 2)%Z.
Proof.
  apply (cache_size_bounded nat 2); [lia|].
  intros op k Hin Hkey. cbn in Hin.
  repeat (destruct Hin as [<-|Hin]; [injection Hkey as <-; discriminate|]).
  contradiction.
Defined.

(** A full cache of two: ["a"] was read after ["b"] was stored, so storing
    ["c"] drops ["b"]. *)
Lemma cache_set_evicts_oldest_witness :
  let c := cache_run [OpSet "a" 1%nat; OpSet "b" 2%nat; OpGet "a"]
             (new_cache 2) in
  map_get "b" (cache (cache_set "c" 3%nat c)) = None /\
  map_get "a" (cache (cache_set "c" 3%nat c)) = Some 1%nat.
Proof.
  cbv zeta.
  set (c := cache_run [OpSet "a" 1%nat; OpSet "b" 2%nat; OpGet "a"]
              (new_cache 2)).
  assert (Hwf : cache_wf c).
  { subst c. unfold cache_run; cbn [fold_left].
    repeat apply cache_exec_wf. apply new_cache_wf. }
  destruct (cache_set_evicts_oldest nat c "c" 3%nat Hwf)
    as (victim & stamp & Hin & Hmin & _ & Hgone & _ & Hothers & _).
  - intros k' Hk' ->. vm_compute in Hk'. discriminate.
  - vm_compute. discriminate.
  - vm_compute. discriminate.
  - reflexivity.
  - vm_compute in Hin. destruct Hin as [[= <- <-]|[[= <- <-]|[]]].
    + exfalso. specialize (Hmin "b" 2%nat). vm_compute in Hmin.
      assert (3 <= 2)%nat by (apply Hmin; right; left; reflexivity). lia.
    + split; [exact Hgone|]. rewrite Hothers by discriminate. reflexivity.
Defined.

Lemma recently_read_survives_witness :
  map_get "a"
    (cache (cache_set "c" 3%nat
              (snd (cache_get "a"
                      (cache_run [OpSet "a" 1%nat; OpSet "b" 2%nat]
                         (new_cache 2)))))) = Some 1%nat.
Proof.
  apply recently_read_survives.
  - unfold cache_run; cbn [fold_left].
    repeat apply cache_exec_wf. apply new_cache_wf.
  - vm_compute. lia.
  - reflexivity.
  - discriminate.
Defined.

(** A cache of one slot that was first given the empty key holds two
    entries after the next [set]. *)
Lemma empty_key_blocks_eviction_witness :
  cache_size (cache_set "a" 2%nat (cache_set "" 1%nat (new_cache 1))) = 2%nat.
Proof.
  exact (empty_key_blocks_eviction nat
           (cache_set "" 1%nat (new_cache 1)) "a" 2%nat 1%nat
           eq_refl eq_refl).
Defined.

End MemoryCacheExamples.

Section ResponseCacheFacts.
Import Caching.

Variable Data : Type.
Variable generateETag : Data -> string.
Variable ttl : Z.
Variable varyHeaders : list string.

Local Abbreviation middleware := (responseCache generateETag ttl varyHeaders).
Local Abbreviation stored_entry now hs body :=
  (mkEntry body
     (capture_headers ("content-type" :: "cache-control" :: varyHeaders) hs)
     now (generateETag body)).



(** X18: the entries of the cache change only when a [GET] is answered by
    the rest of the chain with a 200 JSON body while no fresh entry exists;
    other methods, other statuses and answers not sent through [res.json]
    leave every entry as it was. *)
Theorem only_ok_get_json_is_stored :
  forall (now : Z) (req : Request) (down : Downstream Data)
         (c : MemoryCache (CacheEntry Data)),
    cache (snd (middleware now req down c)) = cache c \/
    (method req = "GET" /\
     fst (middleware now req down c) = Miss down true /\
     exists hs body, down = SendsJson 200 hs body).
Proof.
  intros now req down c. unfold responseCache.
  destruct (String.eqb_spec (method req) "GET") as [Hm|Hm]; cbn [negb];
    [|now left].
  assert (Hsame : cache (snd (cache_get (cacheKey req) c)) = cache c).
  { unfold cache_get. destruct (map_get (cacheKey req) (cache c)); reflexivity. }
  destruct (cache_get (cacheKey req) c) as [found c1]. cbn [snd] in Hsame.
  destruct (match found with
            | Some e => if (now - entry_timestamp e <? ttl)%Z then Some e
                        else None
            | None => None
            end) as [e|].
  { left. destruct (ifNoneMatch req) as [tag|]; [|exact Hsame].
    destruct (negb (String.eqb tag "") && String.eqb tag (entry_etag e));
      exact Hsame. }
  destruct down as [status hs body|]; [|now left].
  unfold defaultShouldCache. rewrite Hm, String.eqb_refl. cbn [andb].
  destruct (Z.eqb_spec status 200) as [->|Hne]; [|now left].
  right. split; [reflexivity|]. split; [reflexivity|]. eauto.
Qed.

Lemma serve_all_ignores_global evs :
  forall cs cs' : Caches Data,
    instanceCache cs = instanceCache cs' ->
    fst (serve_all generateETag ttl varyHeaders evs cs) =
    fst (serve_all generateETag ttl varyHeaders (filter is_request evs) cs').
Proof.
  induction evs as [|ev evs IH]; intros cs cs' Hsame; [reflexivity|].
  destruct ev as [now req down|]; cbn [filter is_request serve_all serve].
  - rewrite Hsame.
    destruct (middleware now req down (instanceCache cs')) as [r c'].
    specialize (IH (mkCaches (globalCache cs) c')
                   (mkCaches (globalCache cs') c') eq_refl).
    destruct (serve_all generateETag ttl varyHeaders evs
                (mkCaches (globalCache cs) c')) as [rs cs2].
    destruct (serve_all generateETag ttl varyHeaders (filter is_request evs)
                (mkCaches (globalCache cs') c')) as [rs' cs2'].
    cbn in *. now rewrite IH.
  - specialize (IH (clearCache cs) cs' Hsame).
    destruct (serve_all generateETag ttl varyHeaders evs (clearCache cs))
      as [rs cs2].
    exact IH.
Qed.

Lemma serve_all_global_empty evs :
  forall cs : Caches Data,
    cache (globalCache cs) = [] ->
    cache (globalCache (snd (serve_all generateETag ttl varyHeaders evs cs)))
    = [].
Proof.
  induction evs as [|ev evs IH]; intros cs Hempty; [exact Hempty|].
  destruct ev as [now req down|]; cbn [serve_all serve].
  - destruct (middleware now req down (instanceCache cs)) as [r c'].
    specialize (IH (mkCaches (globalCache cs) c') Hempty).
    destruct (serve_all generateETag ttl varyHeaders evs
                (mkCaches (globalCache cs) c')) as [rs cs2].
    exact IH.
  - specialize (IH (clearCache cs) eq_refl).
    destruct (serve_all generateETag ttl varyHeaders evs (clearCache cs))
      as [rs cs2].
    exact IH.
Qed.

(** X19: [clearCache] empties [globalCache], which no request ever fills,
    not the cache of the middleware: the answers of a run are the same with
    and without its [clearCache] calls, and the cache statistics report size
    0 throughout. *)
Theorem clearCache_never_invalidates :
  forall (size : Z) (evs : list (ServerEvent Data)),
    fst (serve_all generateETag ttl varyHeaders evs (start size)) =
    fst (serve_all generateETag ttl varyHeaders (filter is_request evs)
           (start size)) /\
    getCacheStats_size
      (snd (serve_all generateETag ttl varyHeaders evs (start size))) = 0%nat.
Proof.
  intros size evs. split.
  - now apply serve_all_ignores_global.
  - unfold getCacheStats_size, cache_size.
    now rewrite serve_all_global_empty.
Qed.

End ResponseCacheFacts.

Section ResponseCacheExamples.
Import Caching.


End ResponseCacheExamples.

(** * The content manager: picking and going back *)

Section PickingFacts.
Import JsArray ContentManager Navigation.

Lemma getFilteredSentences_subset category m s :
  In s (getFilteredSentences category m) ->
  In s (state_sentences m) /\
  (forall cat, category = Some cat -> cat <> "" -> sentence_category s = cat).
Proof.
  unfold getFilteredSentences. destruct category as [cat|].
  - destruct (String.eqb_spec cat "") as [->|Hne].
    + intros Hin. split; [assumption|]. intros ? [= <-] Habs. contradiction.
    + rewrite filter_In, String.eqb_eq. intros (Hin & Hcat).
      split; [assumption|]. intros ? [= <-] _. assumption.
  - intros Hin. split; [assumption | discriminate].
Qed.

(** X20: [getRandomSentence] returns null exactly when no sentence is
    available for the requested category; otherwise it returns one of the
    available sentences (of that very category when one is named), records
    its id in the history, and, whenever some available sentence is not in
    the history, returns one that is not in it. *)
Theorem getRandomSentence_result :
  forall (category : option string) (r : nat) (m : Manager),
    (fst (getRandomSentence category r m) = None <->
     getFilteredSentences category m = []) /\
    forall s,
      fst (getRandomSentence category r m) = Some s ->
      In s (getFilteredSentences category m) /\
      (forall cat, category = Some cat -> cat <> "" ->
                   sentence_category s = cat) /\
      snd (getRandomSentence category r m) =
        addToHistory Sentences (sentence_id s) m /\
      ((exists u, In u (getFilteredSentences category m) /\
                  ~ In (sentence_id u) (history_sentences (history m))) ->
       ~ In (sentence_id s) (history_sentences (history m))).
Proof.
  intros category r m.
  pose proof (getFilteredSentences_subset category m) as Hsub.
  unfold getRandomSentence.
  destruct (getFilteredSentences category m) as [|a0 l0] eqn:Hav.
  { split; [tauto|]. intros s Habs. discriminate Habs. }
  set (hist := history_sentences (history m)).
  set (unshown := filter (fun s => negb (includes hist (sentence_id s)))
                         (a0 :: l0)).
  assert (Hcands : match unshown with [] => a0 :: l0 | _ :: _ => unshown end
                   <> []).
  { destruct unshown; discriminate. }
  destruct (nth_error_randomIndex r _ Hcands) as (sel & Hsel).
  rewrite Hsel. cbn [fst snd]. split.
  { split; discriminate. }
  intros s [= <-].
  apply nth_error_In in Hsel.
  assert (Hin : In sel (a0 :: l0)).
  { destruct unshown eqn:Hun; [assumption|].
    rewrite <- Hun in Hsel. subst unshown. apply filter_In in Hsel. tauto. }
  split; [assumption|]. split; [apply Hsub, Hin|]. split; [reflexivity|].
  intros (u & Hu & Hfresh) Hshown.
  destruct unshown eqn:Hun.
  - assert (Hnone : negb (includes hist (sentence_id u)) = false).
    { apply (proj1 (filter_nil_iff _ _) Hun u Hu). }
    apply negb_false_iff, includes_In in Hnone. contradiction.
  - rewrite <- Hun in Hsel. subst unshown.
    apply filter_In in Hsel as (_ & Hneg).
    apply negb_true_iff in Hneg.
    apply includes_In in Hshown. congruence.
Qed.

Lemma find_by_id (ss : list Sentence) (s : Sentence) :
  NoDup (map sentence_id ss) ->
  In s ss ->
  find (fun x => String.eqb (sentence_id x) (sentence_id s)) ss = Some s.
Proof.
  induction ss as [|a ss IH]; cbn; intros Hnd Hin; [contradiction|].
  inversion Hnd as [|? ? Hnotin Hrest]; subst.
  destruct Hin as [->|Hin]; [now rewrite String.eqb_refl|].
  destruct (String.eqb_spec (sentence_id a) (sentence_id s)) as [Heq|Hne];
    [|auto].
  exfalso. apply Hnotin. rewrite Heq. now apply in_map.
Qed.

(** X21: after two picks that returned sentences with different ids, with a
    history window of at least two and distinct sentence ids,
    [getPreviousSentence] returns the sentence of the first of the two
    picks. *)
Theorem getPreviousSentence_after_two_picks :
  forall (m m1 m2 : Manager) (c1 c2 : option string) (r1 r2 : nat)
         (s1 s2 : Sentence),
    (2 <= maxHistorySize m)%Z ->
    NoDup (map sentence_id (state_sentences m)) ->
    getRandomSentence c1 r1 m = (Some s1, m1) ->
    getRandomSentence c2 r2 m1 = (Some s2, m2) ->
    sentence_id s1 <> sentence_id s2 ->
    getPreviousSentence m2 = Some s1.
Proof.
  intros m m1 m2 c1 c2 r1 r2 s1 s2 Hsize Hnd H1 H2 Hne.
  destruct (getRandomSentence_cases c1 r1 m) as [Hnone|(s & Hin1 & Hsome)];
    [rewrite Hnone in H1; discriminate|].
  rewrite Hsome in H1. injection H1 as -> <-.
  destruct (getRandomSentence_cases c2 r2
              (addToHistory Sentences (sentence_id s1) m))
    as [Hnone|(s & Hin2 & Hsome2)]; [rewrite Hnone in H2; discriminate|].
  rewrite Hsome2 in H2. injection H2 as -> <-.
  unfold getPreviousSentence.
  change (history_sentences
            (history (addToHistory Sentences (sentence_id s2)
                        (addToHistory Sentences (sentence_id s1) m))))
    with (history_of Sentences
            (history (addToHistory Sentences (sentence_id s2)
                        (addToHistory Sentences (sentence_id s1) m)))).
  rewrite addToHistory_history by (cbn; lia).
  rewrite addToHistory_history by lia.
  cbn [maxHistorySize addToHistory saveHistoryToStorage].
  destruct (Z.to_nat (maxHistorySize m)) as [|[|n]] eqn:Hn; try lia.
  cbn [firstn filter].
  destruct (String.eqb_spec (sentence_id s1) (sentence_id s2));
    [contradiction|].
  cbn [negb firstn state_sentences].
  apply find_by_id; [assumption|].
  now apply (getFilteredSentences_subset c1 m).
Qed.

Lemma getPreviousSentence_after_two_picks_witness :
  getPreviousSentence
    (snd (getRandomSentence None 0
            (snd (getRandomSentence None 0
                    (mount 20 (sentences Examples.test_config) []))))) =
  Some (mkSentence "test-k8s-1" "Kubernetes makes container orchestration..."
          "Kubernetes").
Proof.
  eapply (getPreviousSentence_after_two_picks
            (mount 20 (sentences Examples.test_config) []))
    with (c1 := None) (c2 := None) (r1 := 0%nat) (r2 := 0%nat)
         (s2 := mkSentence "test-devops-1" "DevOps practices improve..."
                  "DevOps").
  - cbn. lia.
  - cbn. repeat constructor; cbn; intros H;
      repeat (destruct H as [H|H]; [discriminate H|]); exact H.
  - reflexivity.
  - reflexivity.
  - discriminate.
Defined.

Lemma acronyms_run_without_repeat size aa rs :
  NoDup (map acronym_id aa) ->
  forall sh m,
    maxHistorySize m = size ->
    state_acronyms m = aa ->
    history_acronyms (history m) = shown_acronyms sh ->
    NoDup (shown_acronyms sh) ->
    (List.length (shown_acronyms sh) + List.length rs <= List.length aa)%nat ->
    (Z.of_nat (List.length (shown_acronyms sh) + List.length rs) <= size)%Z ->
    let sh' := fst (fold_left (fun x op => exec op x) (map RandomAcronym rs)
                      (sh, m)) in
    let m' := snd (fold_left (fun x op => exec op x) (map RandomAcronym rs)
                     (sh, m)) in
    NoDup (shown_acronyms sh') /\
    List.length (shown_acronyms sh') =
      (List.length (shown_acronyms sh) + List.length rs)%nat /\
    history_acronyms (history m') = shown_acronyms sh'.
Proof.
  intros Hids. induction rs as [|r rs IH];
    intros sh m Hmax Haa Hhist Hnd Hpool Hwin; cbn [map fold_left List.length].
  - cbn. rewrite Nat.add_0_r. auto.
  - destruct (getRandomAcronym_unshown r m) as (a & Hpick & _ & Hfresh).
    + now rewrite Haa.
    + rewrite Hhist, Haa. cbn in Hpool. lia.
    + cbn [exec]. rewrite Hpick.
      set (sh1 := mkShown (shown_sentences sh)
                          (acronym_id a :: shown_acronyms sh)).
      set (m1 := addToHistory Acronyms (acronym_id a) m).
      assert (Hhist1 : history_acronyms (history m1) = shown_acronyms sh1).
      { change (history_acronyms (history m1))
          with (history_of Acronyms (history m1)).
        subst m1. rewrite addToHistory_history by (cbn in Hwin; lia).
        cbn [history_of]. rewrite (filter_neq_id _ _ Hfresh), Hhist.
        apply firstn_all2. cbn in *. lia. }
      specialize (IH sh1 m1 Hmax Haa Hhist1).
      cbn [shown_acronyms sh1 List.length] in IH.
      destruct IH as (Hnd' & Hlen' & Hhist').
      * constructor; [|assumption]. now rewrite <- Hhist.
      * cbn in Hpool. lia.
      * cbn in Hwin. lia.
      * split; [assumption|]. split; [|assumption].
        rewrite Hlen'. cbn. lia.
Qed.

(** X22: from a newly mounted hook whose acronym ids are distinct, the first
    picks of [getRandomAcronym], as many as there are acronyms and as fit in
    the history window, all return different acronyms. *)
Theorem acronyms_shown_without_repeat :
  forall (size : Z) (ss : list Sentence) (aa : list Acronym) (rs : list nat),
    NoDup (map acronym_id aa) ->
    (List.length rs <= List.length aa)%nat ->
    (Z.of_nat (List.length rs) <= size)%Z ->
    let sh := fst (session (map RandomAcronym rs) (mount size ss aa)) in
    NoDup (shown_acronyms sh) /\
    List.length (shown_acronyms sh) = List.length rs.
Proof.
  intros size ss aa rs Hids Hpool Hwin sh. subst sh.
  destruct (acronyms_run_without_repeat size aa rs Hids
              (mkShown [] []) (mount size ss aa))
    as (Hnd & Hlen & _); try reflexivity; try assumption.
  - constructor.
  - split; [exact Hnd | exact Hlen].
Qed.

Lemma acronyms_shown_without_repeat_witness :
  NoDup (shown_acronyms
           (fst (session (map RandomAcronym [5; 5])
                   (mount 20 [] (acronyms Examples.test_config))))).
Proof.
  apply (acronyms_shown_without_repeat 20 []
           (acronyms Examples.test_config) [5; 5]%nat).
  - cbn. repeat constructor; cbn; intros H;
      repeat (destruct H as [H|H]; [discriminate H|]); exact H.
  - cbn. lia.
  - cbn. lia.
Defined.

End PickingFacts.
